(** * ugly_clearness: marks, layers, fields, rendering and braiding

    A shallow embedding of [src/ugly_clearness.py] and the properties of its
    compositing core.

    Conventions of the embedding:
    - a Python [int] is a [Z]; [&], [>>], [<<], [^], [//] and [%] are
      [Z.land], [Z.shiftr], [Z.shiftl], [Z.lxor], [Z.div] and [Z.modulo];
    - a Python [str] is the list of its code points ([str := list Z]), so that
      [len] is [length] and [ord(t[0])] is the head of the list;
    - a tone is a Python [float]; every operation the program applies to a
      tone (comparison, [min]/[max] against [0.0] and [1.0], doubling and
      truncation by [int]) is exact on finite binary64 values, so a tone is
      modelled by the rational number it denotes ([Q]); NaN and the
      infinities are not part of the model;
    - [Layer] and [Field] are mutable objects that the program shares by
      reference: they live in a store ([heap]) and the functions that touch
      them run in a state-and-exception monad over that store. *)

From Stdlib Require Import ZArith QArith Qround String Ascii List Lia Lqa.
From stdpp Require Import base option list gmap.

Local Open Scope Z_scope.

(** ** Python strings and lists *)

Abbreviation str := (list Z).

Definition ord_ascii (a : ascii) : Z := Z.of_N (N_of_ascii a).

(** An ASCII literal of the source as a list of code points. *)
Definition py (s : string) : str := map ord_ascii (list_ascii_of_string s).

(** [base * k] on strings; a non-positive [k] gives the empty string. *)
Definition str_mul (base : str) (k : Z) : str :=
  mjoin (replicate (Z.to_nat k) base).

(** [sep.join(parts)]. *)
Fixpoint join (sep : str) (parts : list str) : str :=
  match parts with
  | [] => []
  | [s] => s
  | s :: rest => s ++ sep ++ join sep rest
  end.

(** The characters [str.rstrip()] removes: those for which [str.isspace]
    holds. *)
Definition is_space (c : Z) : bool :=
  ((9 <=? c) && (c <=? 13)) || ((28 <=? c) && (c <=? 32))
  || (c =? 133) || (c =? 160) || (c =? 5760)
  || ((8192 <=? c) && (c <=? 8202))
  || (c =? 8232) || (c =? 8233) || (c =? 8239) || (c =? 8287) || (c =? 12288).

Fixpoint lstrip (s : str) : str :=
  match s with
  | c :: s' => if is_space c then lstrip s' else s
  | [] => []
  end.

Definition rstrip (s : str) : str := reverse (lstrip (reverse s)).

(** [range(n)]: empty when [n <= 0]. *)
Definition range (n : Z) : list Z := map Z.of_nat (seq 0 (Z.to_nat n)).

(** The position that the subscript [l[i]] denotes: negative subscripts
    count from the end, anything else out of range raises [IndexError]. *)
Definition subscript {A} (l : list A) (i : Z) : option nat :=
  let n := Z.of_nat (length l) in
  if (0 <=? i) && (i <? n) then Some (Z.to_nat i)
  else if (- n <=? i) && (i <? 0) then Some (Z.to_nat (n + i))
  else None.

Definition getitem {A} (l : list A) (i : Z) : option A :=
  k ← subscript l i; l !! k.

Definition setitem {A} (l : list A) (i : Z) (v : A) : option (list A) :=
  k ← subscript l i; Some (<[k:=v]> l).

(** ** I. Primitives *)

Record Mark := mkMark { x : Z; y : Z; tone : Q; tag : str }.

(** Objects are held by reference.  A [Layer] owns its list of marks and a
    [Field] its list of layers (each created by the dataclass's
    [default_factory]); the lists are folded into the objects. *)
Definition loc := positive.

Inductive obj :=
  | LayerObj (marks : list Mark)
  | FieldObj (width height : Z) (layers : list loc).

Abbreviation heap := (gmap loc obj).

(** Computations on the store; [None] is a raised exception. *)
Definition M (A : Type) : Type := heap -> option (A * heap).

#[global] Instance M_ret : MRet M := fun A a h => Some (a, h).
#[global] Instance M_bind : MBind M := fun A B f m h =>
  match m h with
  | Some (a, h') => f a h'
  | None => None
  end.

Definition lift {A} (o : option A) : M A := fun h =>
  match o with
  | Some a => Some (a, h)
  | None => None
  end.

(** A new object, at a reference that the store does not hold yet. *)
Definition alloc (o : obj) : M loc := fun h =>
  let l := fresh (dom h) in Some (l, <[l:=o]> h).

(** [for a in l: s = body(s, a)]. *)
Fixpoint for_each {A S} (l : list A) (s : S) (body : S -> A -> M S) : M S :=
  match l with
  | [] => mret s
  | a :: l' => s' ← body s a; for_each l' s' body
  end.

Module Layer.

(** [Layer()]. *)
Definition new : M loc := alloc (LayerObj []).

Definition get_marks (l : loc) : M (list Mark) := fun h =>
  match h !! l with
  | Some (LayerObj ms) => Some (ms, h)
  | _ => None
  end.

Definition set_marks (l : loc) (ms : list Mark) : M unit := fun h =>
  match h !! l with
  | Some (LayerObj _) => Some (tt, <[l:=LayerObj ms]> h)
  | _ => None
  end.

(** [add(self, *m)]: [self.marks.extend(m)]. *)
Definition add (self : loc) (m : list Mark) : M unit :=
  ms ← get_marks self; set_marks self (ms ++ m).

End Layer.

(** ** II. Lexicon *)

Definition ORDER : list str :=
  [py "gap"; py "ask"; py "answer"; py "turn"; py "doubt"; py "care"; py "resolve"].

(** '·' is U+00B7, '—' U+2014, '∧' U+2227 and '∎' U+220E. *)
Definition PALETTE : gmap str str :=
  list_to_map
    [ (py "gap",     py " ");
      (py "ask",     [183]);
      (py "answer",  [8212]);
      (py "turn",    [8743]);
      (py "doubt",   py "~");
      (py "care",    py "*");
      (py "resolve", [8718]) ].

(** [max(0.0, min(1.0, tone))]: Python's [min(a, b)] is [b] when [b < a] and
    [a] otherwise, [max(a, b)] is [b] when [b > a] and [a] otherwise. *)
Definition py_min (a b : Q) : Q := if Qlt_le_dec b a then b else a.
Definition py_max (a b : Q) : Q := if Qlt_le_dec a b then b else a.

Definition clamp (tone : Q) : Q := py_max 0 (py_min 1 tone).

(** [int(q)] truncates toward zero. *)
Definition py_int (q : Q) : Z := Z.quot (Qnum q) (Z.pos (Qden q)).

Definition intensity (tone : Q) : Z := 1 + py_int (clamp tone * 2).

Definition base_of (tag : str) : str := default (py "?") (PALETTE !! tag).

Definition symbol (tag : str) (tone : Q) : str :=
  let base := base_of tag in
  let k := intensity tone in
  str_mul base k.

(** ** Field (the class is defined before the lexicon in the source; its
    [render] uses [symbol] and [ORDER]) *)

Abbreviation cell := (Q * str)%type.

(** The working grid of [render] is a list of rows, each row a list object
    of its own (the comprehension builds a new one per row), so an update of
    one row is not seen through another and the grid is a plain value. *)
Abbreviation grid := (list (list cell)).

Module Field.

(** [Field(width, height)]. *)
Definition new (width height : Z) : M loc := alloc (FieldObj width height []).

Definition get_width (f : loc) : M Z := fun h =>
  match h !! f with
  | Some (FieldObj w _ _) => Some (w, h)
  | _ => None
  end.

Definition get_height (f : loc) : M Z := fun h =>
  match h !! f with
  | Some (FieldObj _ ht _) => Some (ht, h)
  | _ => None
  end.

Definition get_layers (f : loc) : M (list loc) := fun h =>
  match h !! f with
  | Some (FieldObj _ _ ls) => Some (ls, h)
  | _ => None
  end.

Definition set_layers (f : loc) (ls : list loc) : M unit := fun h =>
  match h !! f with
  | Some (FieldObj w ht _) => Some (tt, <[f:=FieldObj w ht ls]> h)
  | _ => None
  end.

(** [deposit(self, layer)]: [self.layers.append(layer)]. *)
Definition deposit (self : loc) (layer : loc) : M unit :=
  ls ← get_layers self; set_layers self (ls ++ [layer]).

Definition blank : cell := (0%Q, py " ").

Definition blank_grid (width height : Z) : grid :=
  map (fun _ => map (fun _ => blank) (range width)) (range height).

(** The body of the inner loop, given the bounds read from [self]. *)
Definition paint (width height : Z) (g : grid) (m : Mark) : option grid :=
  if (0 <=? x m) && (x m <? width) && (0 <=? y m) && (y m <? height) then
    row ← getitem g (y m);
    '(old_tone, old_ch) ← getitem row (x m);
    if Qle_bool old_tone (tone m) then
      row ← getitem g (y m);
      row' ← setitem row (x m) (tone m, symbol (tag m) (tone m));
      setitem g (y m) row'   (* the row, updated in place, in its grid *)
    else Some g
  else Some g.

(** Lines 50-56: the grid after every mark of every layer was visited. *)
Definition render_grid (self : loc) : M grid :=
  width ← get_width self;
  height ← get_height self;
  let g := blank_grid width height in
  layers ← get_layers self;
  for_each layers g (fun g layer =>
    marks ← Layer.get_marks layer;
    for_each marks g (fun g m =>
      width ← get_width self;
      height ← get_height self;
      lift (paint width height g m))).

Definition legend_entry (t : str) : str := symbol t (7 # 10) ++ py "=" ++ t.

Definition legend_line : str :=
  [10] ++ py " legend: "
  ++ join (py "  ")
       (map legend_entry (filter (fun t => t <> py "gap") ORDER)).

(** Lines 57-61: the text of a grid. *)
Definition render_text (g : grid) (legend : bool) : str :=
  let lines := map (fun row => rstrip (mjoin (map snd row))) g in
  let s := join [10] lines in
  if legend then s ++ legend_line else s.

(** [render(self, legend)]; the default [legend=True] is passed by the
    caller. *)
Definition render (self : loc) (legend : bool) : M str :=
  g ← render_grid self;
  mret (render_text g legend).

End Field.

(** ** III. Dynamics *)

Definition perturb (x y seed : Z) : Z * Z :=
  let r := Z.land (seed * 6364136223846793005 + 1) 0xFFFFFFFF in
  let dx := Z.shiftr r 8 mod 3 - 1 in
  let dy := Z.shiftr r 16 mod 3 - 1 in
  (x + dx, y + dy).

Definition fold_trace (trace : list str) : Z :=
  fold_left
    (fun h t => Z.lxor (Z.shiftl h 5 - h)
                  (match t with c :: _ => c | [] => 0 end))
    trace 0.

(** ** IV. Makers *)

(** The torsion of [inscribe]: how the running position advances after the
    [i]-th mark. *)
Definition advance (tag : str) (stride i : Z) (p : Z * Z) : Z * Z :=
  let '(x, y) := p in
  if decide (tag = py "ask") then
    (x + stride, y - Z.b2z (i mod 2 =? 0))
  else if decide (tag = py "answer") then
    (x + stride, y + Z.b2z (i mod 3 =? 0))
  else if decide (tag = py "turn") then
    (x + (if i mod 2 =? 0 then 1 else 0),
     y + (if negb (i mod 2 =? 0) then 1 else -1))
  else if decide (tag = py "doubt") then
    (x + stride, y + (if negb ((i / 2) mod 2 =? 0) then 1 else -1))
  else if decide (tag = py "care") then
    (x + stride, y + 0)
  else if decide (tag = py "resolve") then
    (x + stride, y + (if negb (i =? 0) then 0 else 0))
  else
    (x + stride, y).

(** The defaults [stride=1] and [tone=0.5] are passed by the caller. *)
Definition inscribe (field : loc) (origin : Z * Z) (steps : Z) (tag : str)
    (stride : Z) (tone : Q) : M loc :=
  let '(ox, oy) := origin in
  layer ← Layer.new;
  _ ← for_each (range steps) (ox, oy) (fun '(x, y) i =>
    let '(px, py) := perturb x y (i + fold_trace [tag]) in
    _ ← Layer.add layer [mkMark px py tone tag];
    mret (advance tag stride i (x, y)));
  _ ← Field.deposit field layer;
  mret layer.

(** The dict of [braid]: insertion-ordered, a store to a present key keeps
    the key's place. *)
Abbreviation bag := (list ((Z * Z) * Mark)).

Fixpoint bag_get (b : bag) (key : Z * Z) : option Mark :=
  match b with
  | [] => None
  | (k, v) :: b' => if decide (k = key) then Some v else bag_get b' key
  end.

Fixpoint bag_set (b : bag) (key : Z * Z) (m : Mark) : bag :=
  match b with
  | [] => [(key, m)]
  | (k, v) :: b' =>
      if decide (k = key) then (k, m) :: b' else (k, v) :: bag_set b' key m
  end.

(** The body of the inner loop of [braid]. *)
Definition braid_step (b : bag) (m : Mark) : bag :=
  let key := (x m, y m) in
  match bag_get b key with
  | None => bag_set b key m
  | Some old => if Qle_bool (tone old) (tone m) then bag_set b key m else b
  end.

Definition braid (layers : list loc) : M loc :=
  merged ← Layer.new;
  b ← for_each layers ([] : bag) (fun b layer =>
    marks ← Layer.get_marks layer;
    mret (fold_left braid_step marks b));
  _ ← Layer.set_marks merged (map snd b);
  mret merged.

(** ** III, VI, VII. The rest of the program: expectation, burdens, the
    scene and its drawing *)

(** An [Expectation] is used through one local name only, so it is the
    value of its [level].  [lower] subtracts floats, which rounds; the
    model is the exact difference, which is the float result whenever that
    difference is representable, as in the one call of the source
    ([1.0 - 0.25]). *)
Module Expectation.

Definition new (level : Q) : Q := level.

Definition lower (level : Q) (by_ : Q) : Q := py_max 0 (level - by_).

End Expectation.

(** [with without(burden): body]: the burden is bound and dropped, the body
    runs, and an exception of the body passes through the [finally]. *)
Definition without {A} (burden : str) (body : M A) : M A :=
  let _ := burden in body.

(** [scene(field)].  A float literal is the decimal it is written as: the
    program only compares these tones and doubles them, and rounding the
    literals to binary64 changes neither. *)
Definition scene (field : loc) : M unit :=
  let E := Expectation.new 1 in
  _ ← without (py "demand to be mirrored")
        (inscribe field (2, 3) 22 (py "ask") 1 (45 # 100));
  _ ← without (py "defensiveness")
        (inscribe field (4, 5) 20 (py "answer") 1 (60 # 100));
  let E := Expectation.lower E (25 # 100) in
  _ ← without (py "insistence")
        (inscribe field (8, 7) 14 (py "turn") 1 (70 # 100));
  _ ← inscribe field (10, 7) 12 (py "care") 1 (40 # 100);
  _ ← without (py "transaction")
        (inscribe field (16, 9) 6 (py "resolve") 2 (90 # 100));
  _ ← inscribe field (17, 6) 18 (py "answer") 1 (55 # 100);
  _ ← without (py "ornament")
        (inscribe field (22, 8) 16 (py "doubt") 1 (50 # 100));
  _ ← inscribe field (23, 8) 10 (py "care") 1 (45 # 100);
  _ ← inscribe field (30, 9) 4 (py "resolve") 2 (90 # 100);
  mret tt.

(** [draw(field)]. *)
Definition draw (field : loc) : M str := Field.render field true.

(** ** Vocabulary of the statements *)

(** The three levels of [int(c * 2)] on a clamped tone [c]. *)
Definition level (c : Q) : Z :=
  if Qlt_le_dec c (1 # 2) then 1 else if Qlt_le_dec c 1 then 2 else 3.

(** The levels on thirds. *)
Definition level_thirds (c : Q) : Z :=
  if Qlt_le_dec c (1 # 3) then 1 else if Qlt_le_dec c (2 # 3) then 2 else 3.

(** The levels of [symbol] in the words of the specification: they change
    at 1/3 and 2/3. *)
Definition symbol_levels_as_stated (tag : str) (t : Q) : Prop :=
  let c := clamp t in
  let k := 1 + Qfloor (c * 2) in
  (exists ch : Z,
      base_of tag = [ch] /\ symbol tag t = replicate (Z.to_nat k) ch)
  /\ k = level_thirds c.

(** The two loops of [render] as one fold over the marks in the order they
    are visited. *)
Fixpoint paint_all (w ht : Z) (ms : list Mark) (g : grid) : option grid :=
  match ms with
  | [] => Some g
  | m :: ms' => g' ← Field.paint w ht g m; paint_all w ht ms' g'
  end.

(** What the store holds at a reference. *)
Definition is_layer (h : heap) (l : loc) (ms : list Mark) : Prop :=
  h !! l = Some (LayerObj ms).

Definition is_field (h : heap) (f : loc) (w ht : Z) (ls : list loc) : Prop :=
  h !! f = Some (FieldObj w ht ls).

(** The shape of the working grid of a [width] x [height] field. *)
Definition shape (w ht : Z) (g : grid) : Prop :=
  length g = Z.to_nat ht /\ Forall (fun row => length row = Z.to_nat w) g.

Definition in_bounds (w ht : Z) (m : Mark) : Prop :=
  (0 <= x m < w) /\ (0 <= y m < ht).

(** The cell of column [cx] and row [cy]. *)
Definition cell_at (g : grid) (cx cy : Z) : option cell :=
  if (0 <=? cx) && (0 <=? cy) then
    row ← g !! Z.to_nat cy; row !! Z.to_nat cx
  else None.

Definition put (g : grid) (cx cy : Z) (c : cell) : grid :=
  match g !! Z.to_nat cy with
  | Some row => <[Z.to_nat cy := <[Z.to_nat cx := c]> row]> g
  | None => g
  end.

(** [render] shows [sym] at the cell of column [cx] and row [cy]: the grid
    it composes holds [sym] there, the text it returns is the text of that
    grid, and the store is as it was. *)
Definition shows (h : heap) (self : loc) (legend : bool) (cx cy : Z)
    (sym : str) : Prop :=
  exists (g : grid) (t : Q),
    Field.render_grid self h = Some (g, h)
    /\ cell_at g cx cy = Some (t, sym)
    /\ Field.render self legend h = Some (Field.render_text g legend, h).

(** Tone override in the words of the specification: no condition on the
    sign of the tones. *)
Definition tone_override_as_stated (h : heap) (self : loc) (w ht : Z)
    (ls : list loc) (mss : list (list Mark)) (legend : bool)
    (m1 m2 : Mark) : Prop :=
  is_field h self w ht ls ->
  Forall2 (is_layer h) ls mss ->
  concat mss = [m1; m2] \/ concat mss = [m2; m1] ->
  x m1 = x m2 -> y m1 = y m2 -> in_bounds w ht m2 ->
  (tone m1 < tone m2)%Q ->
  shows h self legend (x m2) (y m2) (symbol (tag m2) (tone m2)).

(** The tie-break in the words of the specification: no condition on the
    sign of the tone. *)
Definition tie_break_as_stated (h : heap) (self : loc) (w ht : Z)
    (ls : list loc) (mss1 mss2 : list (list Mark)) (legend : bool)
    (m1 m2 : Mark) : Prop :=
  is_field h self w ht ls ->
  Forall2 (is_layer h) ls (mss1 ++ mss2) ->
  concat mss1 = [m1] -> concat mss2 = [m2] ->
  x m1 = x m2 -> y m1 = y m2 -> in_bounds w ht m2 ->
  (tone m1 == tone m2)%Q ->
  shows h self legend (x m2) (y m2) (symbol (tag m2) (tone m2)).

(** The unperturbed running position of [inscribe] before its [i]-th mark:
    the origin, then one step of the tag's rule after each mark. *)
Fixpoint path (tag : str) (stride : Z) (origin : Z * Z) (i : nat) : Z * Z :=
  match i with
  | O => origin
  | S j => advance tag stride (Z.of_nat j) (path tag stride origin j)
  end.

(** The [i]-th mark of the path: at the perturbed running position, seeded
    by [i + fold_trace([tag])]. *)
Definition path_mark (tag : str) (stride : Z) (tone : Q) (origin : Z * Z)
    (i : nat) : Mark :=
  let p := path tag stride origin i in
  let q := perturb (fst p) (snd p) (Z.of_nat i + fold_trace [tag]) in
  mkMark (fst q) (snd q) tone tag.

Definition coord (m : Mark) : Z * Z := (x m, y m).

(** Among the marks [ms], in the order they are processed, [v] is the mark
    of highest tone on its cell, and the last one of that tone: no earlier
    mark of the cell has a higher tone and every later one has a lower
    tone. *)
Definition last_highest (ms : list Mark) (v : Mark) : Prop :=
  exists pre post : list Mark,
    ms = pre ++ v :: post
    /\ (forall m, m ∈ pre -> coord m = coord v -> (tone m <= tone v)%Q)
    /\ (forall m, m ∈ post -> coord m = coord v -> (tone m < tone v)%Q).

(** What the dict of [braid] holds once the marks [ms] were processed. *)
Definition bag_inv (ms : list Mark) (b : bag) : Prop :=
  NoDup (map fst b)
  /\ (forall k v, (k, v) ∈ b -> k = coord v /\ last_highest ms v)
  /\ (forall m, m ∈ ms -> exists v, (coord m, v) ∈ b).

(** The marks that [braid] leaves in the merged layer, given the marks of
    the supplied layers in the order they are scanned. *)
Definition braided (ms : list Mark) : list Mark :=
  map snd (fold_left braid_step ms []).


(** ** Vocabulary of the further properties *)

(** A cell after one more mark on it (lines 54-56). *)
Definition over (c : cell) (m : Mark) : cell :=
  if Qle_bool (fst c) (tone m) then (tone m, symbol (tag m) (tone m)) else c.

(** The cell [k] after the marks [ms], started from [c]. *)
Definition cell_fold (k : Z * Z) (ms : list Mark) (c : cell) : cell :=
  fold_left (fun c m => if decide (coord m = k) then over c m else c) ms c.

(** The first character of a string as [fold_trace] reads it. *)
Definition first_code (t : str) : Z :=
  match t with c :: _ => c | [] => 0 end.

(** The coordinates of a list in the order of their first appearance,
    [seen] being those that appeared before. *)
Fixpoint first_seen (seen cs : list (Z * Z)) : list (Z * Z) :=
  match cs with
  | [] => []
  | c :: cs' =>
      if decide (c ∈ seen) then first_seen seen cs'
      else c :: first_seen (c :: seen) cs'
  end.

(** A cell whose symbol has no newline and at most three characters. *)
Definition cell_ok (c : cell) : Prop :=
  (10 ∉ snd c) /\ (length (snd c) <= 3)%nat.

(** A line of the rendering of a field of width [w]. *)
Definition line_ok (w : Z) (line : str) : Prop :=
  rstrip line = line /\ (10 ∉ line) /\ (length line <= 3 * Z.to_nat w)%nat.

(** The store [h] is [h0] after deposits of the new layers [new], of marks
    [mss], into the field: the other objects of [h0] are as they were. *)
Definition grown (h0 : heap) (field : loc) (w ht : Z) (ls : list loc)
    (h : heap) (new : list loc) (mss : list (list Mark)) : Prop :=
  is_field h field w ht (ls ++ new)
  /\ Forall2 (is_layer h) new mss
  /\ (forall l o, l <> field -> h0 !! l = Some o -> h !! l = Some o)
  /\ (forall l, l ∈ new -> h0 !! l = None).

(** The marks of one path. *)
Definition path_marks (origin : Z * Z) (steps : nat) (tag : str)
    (stride : Z) (tone : Q) : list Mark :=
  map (path_mark tag stride tone origin) (seq 0 steps).

(** The nine paths of the scene. *)
Definition scene_marks : list (list Mark) :=
  [ path_marks (2, 3) 22 (py "ask") 1 (45 # 100);
    path_marks (4, 5) 20 (py "answer") 1 (60 # 100);
    path_marks (8, 7) 14 (py "turn") 1 (70 # 100);
    path_marks (10, 7) 12 (py "care") 1 (40 # 100);
    path_marks (16, 9) 6 (py "resolve") 2 (90 # 100);
    path_marks (17, 6) 18 (py "answer") 1 (55 # 100);
    path_marks (22, 8) 16 (py "doubt") 1 (50 # 100);
    path_marks (23, 8) 10 (py "care") 1 (45 # 100);
    path_marks (30, 9) 4 (py "resolve") 2 (90 # 100) ].
(** * Properties *)

(** ** The lexicon *)

Example symbol_ask_045 : symbol (py "ask") (45 # 100) = [183].
Proof. vm_compute. reflexivity. Qed.

Example symbol_resolve_09 : symbol (py "resolve") (9 # 10) = [8718; 8718].
Proof. vm_compute. reflexivity. Qed.

Example symbol_unknown_1 : symbol (py "zzz") 1 = py "???".
Proof. vm_compute. reflexivity. Qed.

Lemma clamp_range (t : Q) : (0 <= clamp t)%Q /\ (clamp t <= 1)%Q.
Proof.
  unfold clamp, py_max, py_min.
  destruct (Qlt_le_dec t 1) as [H1|H1];
    destruct (Qlt_le_dec 0 _) as [H2|H2]; split; lra.
Qed.

Lemma clamp_id (t : Q) : (0 <= t)%Q -> (t <= 1)%Q -> (clamp t == t)%Q.
Proof.
  intros H0 H1. unfold clamp, py_max, py_min.
  destruct (Qlt_le_dec t 1) as [Ha|Ha];
    destruct (Qlt_le_dec 0 _) as [Hb|Hb]; lra.
Qed.

(** On a non-negative argument [int] is [floor]. *)
Lemma py_int_floor (q : Q) : (0 <= q)%Q -> py_int q = Qfloor q.
Proof.
  destruct q as [n d]. unfold Qle, py_int, Qfloor. simpl. intros H.
  apply Z.quot_div_nonneg; lia.
Qed.

Lemma floor_double (c : Q) :
  (0 <= c)%Q -> (c <= 1)%Q -> 1 + Qfloor (c * 2) = level c.
Proof.
  destruct c as [n d]. unfold level, Qle, Qlt, Qfloor.
  intros H0 H1.
  destruct (Qlt_le_dec (n # d) (1 # 2)) as [Ha|Ha];
    [|destruct (Qlt_le_dec (n # d) 1) as [Hb|Hb]];
    unfold Qle, Qlt in *; simpl in *.
  - rewrite Z.div_small; lia.
  - replace (n * 2 / Z.pos (d * 1)) with 1; [lia|].
    apply Z.div_unique with (r := n * 2 - Z.pos d); lia.
  - replace (n * 2 / Z.pos (d * 1)) with 2; [lia|].
    apply Z.div_unique with (r := 0); lia.
Qed.

Lemma intensity_floor (t : Q) : intensity t = 1 + Qfloor (clamp t * 2).
Proof.
  unfold intensity. destruct (clamp_range t) as [H0 H1].
  rewrite py_int_floor; [reflexivity|].
  apply Qmult_le_0_compat; lra.
Qed.

Lemma intensity_level (t : Q) : intensity t = level (clamp t).
Proof.
  rewrite intensity_floor. destruct (clamp_range t).
  apply floor_double; assumption.
Qed.

Lemma level_range (c : Q) : 1 <= level c <= 3.
Proof. unfold level. repeat destruct (Qlt_le_dec _ _); lia. Qed.

(** The levels by interval. *)
Lemma level_low (c : Q) : (c < 1 # 2)%Q -> level c = 1.
Proof. intros H. unfold level. destruct (Qlt_le_dec c (1 # 2)); [reflexivity|lra]. Qed.

Lemma level_mid (c : Q) : (1 # 2 <= c)%Q -> (c < 1)%Q -> level c = 2.
Proof.
  intros H1 H2. unfold level.
  destruct (Qlt_le_dec c (1 # 2)); [lra|].
  destruct (Qlt_le_dec c 1); [reflexivity|lra].
Qed.

Lemma level_high (c : Q) : (1 <= c)%Q -> level c = 3.
Proof.
  intros H. unfold level.
  destruct (Qlt_le_dec c (1 # 2)); [lra|].
  destruct (Qlt_le_dec c 1); [lra|reflexivity].
Qed.

Lemma level_mono (c c' : Q) : (c <= c')%Q -> level c <= level c'.
Proof.
  intros H. unfold level.
  destruct (Qlt_le_dec c (1 # 2)) as [Ha|Ha];
    destruct (Qlt_le_dec c' (1 # 2)) as [Hb|Hb];
    destruct (Qlt_le_dec c 1) as [Hc|Hc];
    destruct (Qlt_le_dec c' 1) as [Hd|Hd]; try lia; exfalso; lra.
Qed.

Lemma clamp_mono (t t' : Q) : (t <= t')%Q -> (clamp t <= clamp t')%Q.
Proof.
  intros H. unfold clamp, py_max, py_min.
  destruct (Qlt_le_dec t 1); destruct (Qlt_le_dec t' 1);
    repeat destruct (Qlt_le_dec 0 _); lra.
Qed.

(** Every entry of the palette, and the fallback, is one character. *)
Lemma base_of_single (tag : str) : exists ch : Z, base_of tag = [ch].
Proof.
  unfold base_of. destruct (PALETTE !! tag) as [v|] eqn:E; simpl.
  - apply elem_of_list_to_map_2 in E.
    repeat (apply elem_of_cons in E as [E|E];
            [inversion E; subst; eexists; reflexivity|]).
    inversion E.
  - eexists; reflexivity.
Qed.

Lemma str_mul_single (ch : Z) (k : Z) :
  str_mul [ch] k = replicate (Z.to_nat k) ch.
Proof.
  unfold str_mul. induction (Z.to_nat k) as [|n IH]; simpl; [reflexivity|].
  now rewrite IH.
Qed.

Lemma symbol_length (tag : str) (t : Q) :
  Z.of_nat (length (symbol tag t)) = level (clamp t).
Proof.
  unfold symbol. destruct (base_of_single tag) as [ch ->].
  rewrite str_mul_single, length_replicate, intensity_level.
  pose proof (level_range (clamp t)). lia.
Qed.

(** C2, as amended.  [symbol tag tone] is the one base character of the tag
    ([?] for an unknown tag) repeated [k = 1 + floor(clamped_tone * 2)]
    times, and [k] is 1 for a clamped tone in [0, 1/2), 2 for a clamped tone
    in [1/2, 1) and 3 for a clamped tone equal to 1. *)
Theorem symbol_levels (tag : str) (t : Q) :
  let c := clamp t in
  let k := 1 + Qfloor (c * 2) in
  (exists ch : Z,
      base_of tag = [ch] /\ symbol tag t = replicate (Z.to_nat k) ch)
  /\ k = level c.
Proof.
  intros c k. destruct (clamp_range t) as [H0 H1].
  split.
  - destruct (base_of_single tag) as [ch Hch]. exists ch. split; [exact Hch|].
    unfold symbol. rewrite Hch, str_mul_single, intensity_floor. reflexivity.
  - apply floor_double; assumption.
Qed.

(** C2, as stated, fails at tone 0.375: the clamped tone lies in
    [1/3, 2/3), where the levels on thirds give 2, and [symbol] repeats the
    base character once. *)
Lemma symbol_levels_thirds_counterexample :
  ~ symbol_levels_as_stated (py "ask") (3 # 8).
Proof.
  unfold symbol_levels_as_stated. intros [_ H]. vm_compute in H. discriminate H.
Qed.

(** C7.  For a fixed tag the length of [symbol tag t] does not decrease as
    [t] grows over [0, 1], and it is 1, 2 or 3 there. *)
Theorem symbol_length_monotone (tag : str) (t t' : Q) :
  (0 <= t)%Q -> (t <= t')%Q -> (t' <= 1)%Q ->
  (length (symbol tag t) <= length (symbol tag t'))%nat
  /\ (1 <= length (symbol tag t) <= 3)%nat
  /\ (1 <= length (symbol tag t') <= 3)%nat.
Proof.
  intros H0 Hle H1.
  pose proof (symbol_length tag t) as L.
  pose proof (symbol_length tag t') as L'.
  pose proof (level_range (clamp t)).
  pose proof (level_range (clamp t')).
  pose proof (level_mono _ _ (clamp_mono _ _ Hle)).
  lia.
Qed.

Lemma symbol_length_monotone_witness :
  (length (symbol (py "care") (3 # 8)) <= length (symbol (py "care") (3 # 4)))%nat
  /\ (1 <= length (symbol (py "care") (3 # 8)) <= 3)%nat
  /\ (1 <= length (symbol (py "care") (3 # 4)) <= 3)%nat.
Proof.
  apply (symbol_length_monotone (py "care") (3 # 8) (3 # 4));
    unfold Qle; simpl; lia.
Defined.

(** ** Perturbation *)

(** C9.  The drift of [perturb] depends on the seed only: it is the value of
    [perturb] at the origin, and each of its components is -1, 0 or 1. *)
Theorem perturb_drift (seed : Z) :
  let '(dx, dy) := perturb 0 0 seed in
  (forall px py : Z, perturb px py seed = (px + dx, py + dy))
  /\ (forall px py qx qy : Z,
        (fst (perturb px py seed) - px, snd (perturb px py seed) - py)
        = (fst (perturb qx qy seed) - qx, snd (perturb qx qy seed) - qy))
  /\ (dx = -1 \/ dx = 0 \/ dx = 1)
  /\ (dy = -1 \/ dy = 0 \/ dy = 1).
Proof.
  unfold perturb.
  set (r := Z.land (seed * 6364136223846793005 + 1) 4294967295).
  pose proof (Z.mod_pos_bound (Z.shiftr r 8) 3 ltac:(lia)) as Hx.
  pose proof (Z.mod_pos_bound (Z.shiftr r 16) 3 ltac:(lia)) as Hy.
  cbv beta iota zeta.
  split; [|split; [|split]].
  - intros px py. f_equal; lia.
  - intros px py qx qy. simpl. f_equal; lia.
  - lia.
  - lia.
Qed.

(** ** The store *)

Lemma bind_run {A B} (m : M A) (k : A -> M B) (h h' : heap) (a : A) :
  m h = Some (a, h') -> (m ≫= k) h = k a h'.
Proof. intros E. unfold mbind, M_bind. now rewrite E. Qed.

Lemma for_each_cons {A S} (a : A) (l : list A) (s : S) (body : S -> A -> M S) :
  for_each (a :: l) s body = (body s a ≫= fun s' => for_each l s' body).
Proof. reflexivity. Qed.

Lemma alloc_run (o : obj) (h : heap) :
  alloc o h = Some (fresh (dom h), <[fresh (dom h) := o]> h)
  /\ h !! fresh (dom h) = None.
Proof. split; [reflexivity|]. apply not_elem_of_dom, is_fresh. Qed.

Lemma get_marks_run h l ms :
  is_layer h l ms -> Layer.get_marks l h = Some (ms, h).
Proof. unfold is_layer, Layer.get_marks. now intros ->. Qed.

Lemma get_width_run h f w ht ls :
  is_field h f w ht ls -> Field.get_width f h = Some (w, h).
Proof. unfold is_field, Field.get_width. now intros ->. Qed.

Lemma get_height_run h f w ht ls :
  is_field h f w ht ls -> Field.get_height f h = Some (ht, h).
Proof. unfold is_field, Field.get_height. now intros ->. Qed.

Lemma get_layers_run h f w ht ls :
  is_field h f w ht ls -> Field.get_layers f h = Some (ls, h).
Proof. unfold is_field, Field.get_layers. now intros ->. Qed.

Lemma Layer_add_run (h : heap) (l : loc) (ms m : list Mark) :
  is_layer h l ms ->
  Layer.add l m h = Some (tt, <[l := LayerObj (ms ++ m)]> h).
Proof.
  intros Hl. unfold Layer.add.
  rewrite (bind_run _ _ h h ms (get_marks_run _ _ _ Hl)).
  unfold Layer.set_marks. unfold is_layer in Hl. now rewrite Hl.
Qed.

Lemma Field_deposit_run (h : heap) (f : loc) (w ht : Z) (ls : list loc)
    (layer : loc) :
  is_field h f w ht ls ->
  Field.deposit f layer h
  = Some (tt, <[f := FieldObj w ht (ls ++ [layer])]> h).
Proof.
  intros Hf. unfold Field.deposit.
  rewrite (bind_run _ _ h h ls (get_layers_run _ _ _ _ _ Hf)).
  unfold Field.set_layers. unfold is_field in Hf. now rewrite Hf.
Qed.

(** A reference to a layer is not a reference to a field. *)
Lemma layer_not_field h l ms f w ht ls :
  is_layer h l ms -> is_field h f w ht ls -> l <> f.
Proof. unfold is_layer, is_field. intros Hl Hf ->. congruence. Qed.

(** ** Rationals and subscripts *)

Lemma Qle_bool_false (a b : Q) : (b < a)%Q -> Qle_bool a b = false.
Proof.
  intros H. destruct (Qle_bool a b) eqn:E; [|reflexivity].
  apply Qle_bool_iff in E. lra.
Qed.

Lemma Qle_bool_true (a b : Q) : (a <= b)%Q -> Qle_bool a b = true.
Proof. apply Qle_bool_iff. Qed.

(** A guard made of integer comparisons that holds. *)
Ltac holds b :=
  replace b with true by (symmetry; rewrite ?andb_true_iff; lia).

Lemma length_range (n : Z) : length (range n) = Z.to_nat n.
Proof. unfold range. now rewrite length_map, length_seq. Qed.

Lemma lookup_const_map {A B} (b : B) (l : list A) (i : nat) :
  (i < length l)%nat -> map (fun _ => b) l !! i = Some b.
Proof.
  intros Hi. destruct (lookup_lt_is_Some_2 l i Hi) as [a Ha].
  change (map (fun _ : A => b) l) with ((fun _ : A => b) <$> l).
  now rewrite list_lookup_fmap, Ha.
Qed.

Lemma subscript_in {A} (l : list A) (i : Z) :
  0 <= i < Z.of_nat (length l) -> subscript l i = Some (Z.to_nat i).
Proof.
  intros Hi. unfold subscript.
  holds ((0 <=? i) && (i <? Z.of_nat (length l))). reflexivity.
Qed.

(** ** The working grid of a [w] x [ht] field *)

Section Grid.

Variables w ht : Z.

Lemma blank_grid_shape : shape w ht (Field.blank_grid w ht).
Proof.
  unfold shape, Field.blank_grid. split.
  - now rewrite length_map, length_range.
  - apply Forall_forall. intros row Hin.
    apply list_elem_of_fmap in Hin as (? & -> & _).
    now rewrite length_map, length_range.
Qed.

Lemma cell_at_blank (cx cy : Z) :
  0 <= cx < w -> 0 <= cy < ht ->
  cell_at (Field.blank_grid w ht) cx cy = Some Field.blank.
Proof.
  intros Hx Hy. unfold cell_at, Field.blank_grid.
  holds ((0 <=? cx) && (0 <=? cy)).
  rewrite (lookup_const_map (map (fun _ => Field.blank) (range w)) (range ht))
    by (rewrite length_range; lia).
  simpl. apply lookup_const_map. rewrite length_range; lia.
Qed.

Lemma shape_row (g : grid) (i : nat) (row : list cell) :
  shape w ht g -> g !! i = Some row -> length row = Z.to_nat w.
Proof.
  intros [_ Hrows] Hi. rewrite Forall_forall in Hrows.
  apply Hrows. eapply list_elem_of_lookup_2; eassumption.
Qed.

Lemma put_shape (g : grid) (cx cy : Z) (c : cell) :
  shape w ht g -> shape w ht (put g cx cy c).
Proof.
  intros Hs. pose proof Hs as [Hlen Hrows]. unfold put.
  destruct (g !! Z.to_nat cy) as [row|] eqn:Hrow; [|exact Hs].
  split.
  - now rewrite length_insert.
  - apply Forall_insert; [exact Hrows|].
    rewrite length_insert. eapply shape_row; eassumption.
Qed.

Lemma cell_at_put_eq (g : grid) (cx cy : Z) (c : cell) :
  shape w ht g -> 0 <= cx < w -> 0 <= cy < ht ->
  cell_at (put g cx cy c) cx cy = Some c.
Proof.
  intros Hs Hx Hy. pose proof Hs as [Hlen Hrows]. unfold cell_at, put.
  holds ((0 <=? cx) && (0 <=? cy)).
  destruct (lookup_lt_is_Some_2 g (Z.to_nat cy) ltac:(lia)) as [row Hrow].
  rewrite Hrow. rewrite list_lookup_insert_eq by lia. simpl.
  apply list_lookup_insert_eq.
  rewrite (shape_row _ _ _ Hs Hrow). lia.
Qed.

(** An in-bounds mark reads its cell and, when its tone is at least the
    stored one, overwrites it; no subscript is out of range. *)
Lemma paint_in (g : grid) (m : Mark) :
  shape w ht g -> in_bounds w ht m ->
  exists old : cell,
    cell_at g (x m) (y m) = Some old
    /\ Field.paint w ht g m
       = Some (if Qle_bool (fst old) (tone m)
               then put g (x m) (y m) (tone m, symbol (tag m) (tone m))
               else g).
Proof.
  intros Hs [Hx Hy]. pose proof Hs as [Hlen Hrows].
  unfold Field.paint, cell_at.
  holds ((0 <=? x m) && (x m <? w) && (0 <=? y m) && (y m <? ht)).
  holds ((0 <=? x m) && (0 <=? y m)).
  unfold getitem, setitem.
  rewrite (subscript_in g (y m)) by lia. simpl.
  destruct (lookup_lt_is_Some_2 g (Z.to_nat (y m)) ltac:(lia)) as [row Hrow].
  rewrite Hrow. simpl.
  pose proof (shape_row _ _ _ Hs Hrow) as Hrl.
  rewrite (subscript_in row (x m)) by lia. simpl.
  destruct (lookup_lt_is_Some_2 row (Z.to_nat (x m)) ltac:(lia)) as [[ot oc] Hc].
  rewrite Hc. simpl. exists (ot, oc). split; [reflexivity|]. simpl.
  destruct (Qle_bool ot (tone m)); [|reflexivity].
  unfold put. now rewrite Hrow.
Qed.

(** A mark outside the bounds is skipped. *)
Lemma paint_out (g : grid) (m : Mark) :
  ~ in_bounds w ht m -> Field.paint w ht g m = Some g.
Proof.
  intros Hout. unfold Field.paint.
  destruct ((0 <=? x m) && (x m <? w) && (0 <=? y m) && (y m <? ht)) eqn:E;
    [|reflexivity].
  exfalso. apply Hout. rewrite !andb_true_iff in E. unfold in_bounds. lia.
Qed.

Lemma paint_total (g : grid) (m : Mark) :
  shape w ht g -> exists g', Field.paint w ht g m = Some g' /\ shape w ht g'.
Proof.
  intros Hs.
  destruct (decide (in_bounds w ht m)) as [Hin|Hout].
  - destruct (paint_in g m Hs Hin) as (old & _ & ->).
    eexists; split; [reflexivity|].
    destruct (Qle_bool _ _); [now apply put_shape|exact Hs].
  - rewrite (paint_out g m Hout). eauto.
Qed.

(** The cell of an in-bounds mark after the mark was visited. *)
Lemma paint_cell (g : grid) (m : Mark) (old : cell) :
  shape w ht g -> in_bounds w ht m ->
  cell_at g (x m) (y m) = Some old ->
  exists g',
    Field.paint w ht g m = Some g' /\ shape w ht g'
    /\ cell_at g' (x m) (y m)
       = Some (if Qle_bool (fst old) (tone m)
               then (tone m, symbol (tag m) (tone m)) else old).
Proof.
  intros Hs Hin Hold.
  destruct (paint_in g m Hs Hin) as (old' & Hold' & ->).
  assert (old' = old) as -> by congruence.
  eexists; split; [reflexivity|].
  destruct Hin as [Hx Hy].
  destruct (Qle_bool (fst old) (tone m)).
  - split; [now apply put_shape|]. now apply cell_at_put_eq.
  - split; assumption.
Qed.

Lemma paint_all_app (ms1 ms2 : list Mark) (g : grid) :
  paint_all w ht (ms1 ++ ms2) g = (paint_all w ht ms1 g ≫= paint_all w ht ms2).
Proof.
  revert g. induction ms1 as [|m ms1 IH]; intros g; simpl; [reflexivity|].
  destruct (Field.paint w ht g m) as [g'|]; simpl; [apply IH|reflexivity].
Qed.

(** No round of the loops raises. *)
Lemma paint_all_total (ms : list Mark) (g : grid) :
  shape w ht g -> exists g', paint_all w ht ms g = Some g' /\ shape w ht g'.
Proof.
  revert g. induction ms as [|m ms IH]; intros g Hs; simpl.
  - eauto.
  - destruct (paint_total g m Hs) as (g1 & -> & Hs1). simpl.
    apply IH, Hs1.
Qed.

(** Only the in-bounds marks count. *)
Lemma paint_all_filter (ms : list Mark) (g : grid) :
  paint_all w ht ms g = paint_all w ht (filter (in_bounds w ht) ms) g.
Proof.
  revert g. induction ms as [|m ms IH]; intros g; [reflexivity|].
  destruct (decide (in_bounds w ht m)) as [Hin|Hout].
  - rewrite filter_cons_True by exact Hin. simpl.
    destruct (Field.paint w ht g m); simpl; [apply IH|reflexivity].
  - rewrite filter_cons_False by exact Hout. simpl.
    rewrite (paint_out g m Hout). simpl. apply IH.
Qed.

(** Two marks on one cell of a blank grid: the later one is shown when its
    tone is at least the earlier one's and not negative, the earlier one
    when its tone is strictly higher and not negative. *)
Lemma paint_two (ma mb : Mark) :
  in_bounds w ht ma -> x mb = x ma -> y mb = y ma ->
  exists g c,
    paint_all w ht [ma; mb] (Field.blank_grid w ht) = Some g
    /\ cell_at g (x ma) (y ma) = Some c
    /\ ((tone ma <= tone mb)%Q -> (0 <= tone mb)%Q ->
        c = (tone mb, symbol (tag mb) (tone mb)))
    /\ ((tone mb < tone ma)%Q -> (0 <= tone ma)%Q ->
        c = (tone ma, symbol (tag ma) (tone ma))).
Proof.
  intros Ha Hx Hy.
  assert (in_bounds w ht mb) as Hb
      by (unfold in_bounds; rewrite Hx, Hy; exact Ha).
  destruct Ha as [Hax Hay].
  destruct (paint_cell (Field.blank_grid w ht) ma Field.blank
              blank_grid_shape (conj Hax Hay)
              (cell_at_blank _ _ Hax Hay)) as (g1 & Hp1 & Hs1 & Hc1).
  rewrite <- Hx, <- Hy in Hc1.
  destruct (paint_cell g1 mb _ Hs1 Hb Hc1) as (g2 & Hp2 & Hs2 & Hc2).
  rewrite Hx, Hy in Hc2.
  eexists g2, _. split; [|split; [exact Hc2|split]].
  - simpl. rewrite Hp1. simpl. rewrite Hp2. reflexivity.
  - intros Hab H0. simpl in *.
    destruct (Qle_bool 0 (tone ma)) eqn:E; simpl.
    + now rewrite (Qle_bool_true _ _ Hab).
    + now rewrite (Qle_bool_true _ _ H0).
  - intros Hba H0. simpl in *.
    rewrite (Qle_bool_true _ _ H0). simpl.
    now rewrite (Qle_bool_false _ _ Hba).
Qed.

End Grid.

(** ** Rendering a field of the store *)

Section Render.

Context (h : heap) (self : loc) (w ht : Z) (ls : list loc).
Hypothesis Hfield : is_field h self w ht ls.

Lemma render_inner_loop (ms : list Mark) (g : grid) :
  for_each ms g (fun g m =>
      width ← Field.get_width self;
      height ← Field.get_height self;
      lift (Field.paint width height g m)) h
  = lift (paint_all w ht ms g) h.
Proof.
  revert g. induction ms as [|m ms IH]; intros g; [reflexivity|].
  rewrite for_each_cons. unfold mbind at 1, M_bind at 1.
  rewrite (bind_run _ _ h h w (get_width_run _ _ _ _ _ Hfield)).
  rewrite (bind_run _ _ h h ht (get_height_run _ _ _ _ _ Hfield)).
  unfold lift at 1. simpl.
  destruct (Field.paint w ht g m) as [g'|]; simpl; [apply IH|reflexivity].
Qed.

Lemma render_outer_loop (ls' : list loc) (mss : list (list Mark)) (g : grid) :
  Forall2 (is_layer h) ls' mss ->
  for_each ls' g (fun g layer =>
      marks ← Layer.get_marks layer;
      for_each marks g (fun g m =>
        width ← Field.get_width self;
        height ← Field.get_height self;
        lift (Field.paint width height g m))) h
  = lift (paint_all w ht (concat mss) g) h.
Proof.
  intros Hls. revert g.
  induction Hls as [|l ms ls' mss Hl Hls IH]; intros g; [reflexivity|].
  rewrite for_each_cons. unfold mbind at 1, M_bind at 1.
  rewrite (bind_run _ _ h h ms (get_marks_run _ _ _ Hl)).
  rewrite render_inner_loop. simpl concat.
  rewrite paint_all_app. unfold lift at 1.
  destruct (paint_all w ht ms g) as [g'|]; simpl; [apply IH|reflexivity].
Qed.

(** The grid of [render] is the fold of [paint] over the marks of the
    layers, in deposit order, from the blank grid. *)
Lemma render_grid_run (mss : list (list Mark)) :
  Forall2 (is_layer h) ls mss ->
  Field.render_grid self h
  = lift (paint_all w ht (concat mss) (Field.blank_grid w ht)) h.
Proof.
  intros Hls. unfold Field.render_grid.
  rewrite (bind_run _ _ h h w (get_width_run _ _ _ _ _ Hfield)).
  rewrite (bind_run _ _ h h ht (get_height_run _ _ _ _ _ Hfield)).
  rewrite (bind_run _ _ h h ls (get_layers_run _ _ _ _ _ Hfield)).
  apply (render_outer_loop ls mss _ Hls).
Qed.

Lemma render_run (mss : list (list Mark)) (g : grid) (legend : bool) :
  Forall2 (is_layer h) ls mss ->
  paint_all w ht (concat mss) (Field.blank_grid w ht) = Some g ->
  Field.render_grid self h = Some (g, h)
  /\ Field.render self legend h = Some (Field.render_text g legend, h).
Proof.
  intros Hls Hg.
  assert (Field.render_grid self h = Some (g, h)) as Hr
      by (rewrite (render_grid_run mss Hls), Hg; reflexivity).
  split; [exact Hr|].
  unfold Field.render. now rewrite (bind_run _ _ h h g Hr).
Qed.

Lemma render_shows (mss : list (list Mark)) (g : grid) (legend : bool)
    (cx cy : Z) (t : Q) (sym : str) :
  Forall2 (is_layer h) ls mss ->
  paint_all w ht (concat mss) (Field.blank_grid w ht) = Some g ->
  cell_at g cx cy = Some (t, sym) ->
  shows h self legend cx cy sym.
Proof.
  intros Hls Hg Hc.
  destruct (render_run mss g legend Hls Hg) as [Hr Ht].
  exists g, t. split; [exact Hr|split; [exact Hc|exact Ht]].
Qed.

End Render.

(** ** Which mark a cell shows *)

(** C1, as amended.  When the layers of a field hold exactly two marks, on
    one in-bounds cell, with tones [t1 < t2] and [0 <= t2], [render] shows
    at that cell the symbol of the mark of tone [t2], in whichever order
    and in whichever layers the two marks were deposited. *)
Theorem tone_override h self w ht ls mss legend (m1 m2 : Mark) :
  is_field h self w ht ls ->
  Forall2 (is_layer h) ls mss ->
  concat mss = [m1; m2] \/ concat mss = [m2; m1] ->
  x m1 = x m2 -> y m1 = y m2 -> in_bounds w ht m2 ->
  (tone m1 < tone m2)%Q ->
  (0 <= tone m2)%Q ->
  shows h self legend (x m2) (y m2) (symbol (tag m2) (tone m2)).
Proof.
  intros Hf Hls Hms Hx Hy Hin Hlt H0.
  destruct Hms as [Hms|Hms].
  - assert (in_bounds w ht m1) as Hin1
        by (unfold in_bounds; rewrite Hx, Hy; exact Hin).
    destruct (paint_two w ht m1 m2 Hin1 (eq_sym Hx) (eq_sym Hy))
      as (g & c & Hg & Hc & Hlater & _).
    rewrite Hlater in Hc by lra. rewrite Hx, Hy in Hc.
    rewrite <- Hms in Hg.
    exact (render_shows h self w ht ls Hf mss g legend _ _ _ _ Hls Hg Hc).
  - destruct (paint_two w ht m2 m1 Hin Hx Hy)
      as (g & c & Hg & Hc & _ & Hearlier).
    rewrite Hearlier in Hc by lra.
    rewrite <- Hms in Hg.
    exact (render_shows h self w ht ls Hf mss g legend _ _ _ _ Hls Hg Hc).
Qed.

(** The mark of higher tone is deposited first, in a layer of its own. *)
Lemma tone_override_witness :
  shows {[ 1%positive := FieldObj 3 3 [2%positive; 3%positive];
           2%positive := LayerObj [mkMark 1 1 (3 # 4) (py "care")];
           3%positive := LayerObj [mkMark 1 1 (3 # 8) (py "ask")] ]}
        1%positive true 1 1 (py "**").
Proof.
  apply (tone_override _ 1%positive 3 3 [2%positive; 3%positive]
           [[mkMark 1 1 (3 # 4) (py "care")]; [mkMark 1 1 (3 # 8) (py "ask")]]
           true (mkMark 1 1 (3 # 8) (py "ask")) (mkMark 1 1 (3 # 4) (py "care"))).
  - reflexivity.
  - repeat constructor.
  - right. reflexivity.
  - reflexivity.
  - reflexivity.
  - unfold in_bounds. simpl. lia.
  - unfold Qlt. simpl. lia.
  - unfold Qle. simpl. lia.
Defined.

(** C1, as stated, fails for negative tones: two marks of tones -1 and
    -0.5 on cell (1, 1) of a 3 x 3 field leave the cell blank, since the
    cell starts at tone 0.0, while the symbol of the mark of tone -0.5 is
    one '·'. *)
Lemma tone_override_negative_counterexample :
  ~ tone_override_as_stated
      {[ 1%positive := FieldObj 3 3 [2%positive];
         2%positive := LayerObj [mkMark 1 1 (-1) (py "ask");
                                 mkMark 1 1 (-1 # 2) (py "ask")] ]}
      1%positive 3 3 [2%positive]
      [[mkMark 1 1 (-1) (py "ask"); mkMark 1 1 (-1 # 2) (py "ask")]]
      false
      (mkMark 1 1 (-1) (py "ask")) (mkMark 1 1 (-1 # 2) (py "ask")).
Proof.
  intros H. destruct H as (g & t & Hg & Hc & _).
  - reflexivity.
  - repeat constructor.
  - left. reflexivity.
  - reflexivity.
  - reflexivity.
  - unfold in_bounds. simpl. lia.
  - unfold Qlt. simpl. lia.
  - vm_compute in Hg. injection Hg as <-.
    vm_compute in Hc. discriminate Hc.
Qed.

Example render_negative_tones :
  Field.render 1%positive false
    {[ 1%positive := FieldObj 3 3 [2%positive];
       2%positive := LayerObj [mkMark 1 1 (-1) (py "ask");
                               mkMark 1 1 (-1 # 2) (py "ask")] ]}
  = Some ([10; 10],
          {[ 1%positive := FieldObj 3 3 [2%positive];
             2%positive := LayerObj [mkMark 1 1 (-1) (py "ask");
                                     mkMark 1 1 (-1 # 2) (py "ask")] ]}).
Proof. vm_compute. reflexivity. Qed.

Example render_higher_tone_first :
  Field.render 1%positive false
    {[ 1%positive := FieldObj 3 3 [2%positive; 3%positive];
       2%positive := LayerObj [mkMark 1 1 (3 # 4) (py "care")];
       3%positive := LayerObj [mkMark 1 1 (3 # 8) (py "ask")] ]}
  = Some ([10] ++ py " **" ++ [10],
          {[ 1%positive := FieldObj 3 3 [2%positive; 3%positive];
             2%positive := LayerObj [mkMark 1 1 (3 # 4) (py "care")];
             3%positive := LayerObj [mkMark 1 1 (3 # 8) (py "ask")] ]}).
Proof. vm_compute. reflexivity. Qed.

(** C5, as amended.  When the layers of a field hold exactly two marks, on
    one in-bounds cell, with equal tones that are not negative, one in an
    earlier-deposited layer and one in a later-deposited layer, [render]
    shows at that cell the symbol of the mark of the later layer. *)
Theorem tie_break h self w ht ls mss1 mss2 legend (m1 m2 : Mark) :
  is_field h self w ht ls ->
  Forall2 (is_layer h) ls (mss1 ++ mss2) ->
  concat mss1 = [m1] -> concat mss2 = [m2] ->
  x m1 = x m2 -> y m1 = y m2 -> in_bounds w ht m2 ->
  (tone m1 == tone m2)%Q ->
  (0 <= tone m2)%Q ->
  shows h self legend (x m2) (y m2) (symbol (tag m2) (tone m2)).
Proof.
  intros Hf Hls Hms1 Hms2 Hx Hy Hin Heq H0.
  assert (in_bounds w ht m1) as Hin1
      by (unfold in_bounds; rewrite Hx, Hy; exact Hin).
  destruct (paint_two w ht m1 m2 Hin1 (eq_sym Hx) (eq_sym Hy))
    as (g & c & Hg & Hc & Hlater & _).
  rewrite Hlater in Hc by lra. rewrite Hx, Hy in Hc.
  assert (concat (mss1 ++ mss2) = [m1; m2]) as Hms
      by (rewrite concat_app, Hms1, Hms2; reflexivity).
  rewrite <- Hms in Hg.
  exact (render_shows h self w ht ls Hf _ g legend _ _ _ _ Hls Hg Hc).
Qed.

Lemma tie_break_witness :
  shows {[ 1%positive := FieldObj 3 3 [2%positive; 3%positive];
           2%positive := LayerObj [mkMark 2 0 (1 # 2) (py "ask")];
           3%positive := LayerObj [mkMark 2 0 (1 # 2) (py "doubt")] ]}
        1%positive false 2 0 (py "~~").
Proof.
  apply (tie_break _ 1%positive 3 3 [2%positive; 3%positive]
           [[mkMark 2 0 (1 # 2) (py "ask")]] [[mkMark 2 0 (1 # 2) (py "doubt")]]
           false (mkMark 2 0 (1 # 2) (py "ask")) (mkMark 2 0 (1 # 2) (py "doubt"))).
  - reflexivity.
  - repeat constructor.
  - reflexivity.
  - reflexivity.
  - reflexivity.
  - reflexivity.
  - unfold in_bounds. simpl. lia.
  - reflexivity.
  - unfold Qle. simpl. lia.
Defined.

(** C5, as stated, fails for a negative tone: two marks of tone -0.5 on
    cell (2, 0), the first in an earlier layer and the second in a later
    one, leave the cell blank, while the symbol of the later mark is one
    '~'. *)
Lemma tie_break_negative_counterexample :
  ~ tie_break_as_stated
      {[ 1%positive := FieldObj 3 3 [2%positive; 3%positive];
         2%positive := LayerObj [mkMark 2 0 (-1 # 2) (py "ask")];
         3%positive := LayerObj [mkMark 2 0 (-1 # 2) (py "doubt")] ]}
      1%positive 3 3 [2%positive; 3%positive]
      [[mkMark 2 0 (-1 # 2) (py "ask")]] [[mkMark 2 0 (-1 # 2) (py "doubt")]]
      false
      (mkMark 2 0 (-1 # 2) (py "ask")) (mkMark 2 0 (-1 # 2) (py "doubt")).
Proof.
  intros H. destruct H as (g & t & Hg & Hc & _).
  - reflexivity.
  - repeat constructor.
  - reflexivity.
  - reflexivity.
  - reflexivity.
  - reflexivity.
  - unfold in_bounds. simpl. lia.
  - reflexivity.
  - vm_compute in Hg. injection Hg as <-.
    vm_compute in Hc. discriminate Hc.
Qed.

(** ** Marks outside the bounds *)

(** Taking an out-of-bounds mark out of a layer object keeps the in-bounds
    marks that the layers of a field hold. *)
Lemma layers_without (w ht : Z) (h : heap) (ls : list loc)
    (mss : list (list Mark)) (l : loc) (pre post : list Mark) (m : Mark) :
  Forall2 (is_layer h) ls mss ->
  is_layer h l (pre ++ m :: post) ->
  ~ in_bounds w ht m ->
  exists mss',
    Forall2 (is_layer (<[l := LayerObj (pre ++ post)]> h)) ls mss'
    /\ filter (in_bounds w ht) (concat mss')
       = filter (in_bounds w ht) (concat mss).
Proof.
  intros Hls Hl Hout.
  induction Hls as [|l0 ms0 ls mss Hl0 Hls (mss' & IH1 & IH2)].
  - exists []. split; [constructor|reflexivity].
  - destruct (decide (l0 = l)) as [->|Hne].
    + exists ((pre ++ post) :: mss'). split.
      * constructor; [|exact IH1]. unfold is_layer. apply lookup_insert_eq.
      * unfold is_layer in Hl0, Hl. rewrite Hl in Hl0.
        injection Hl0 as <-. simpl.
        rewrite !filter_app, IH2. f_equal. f_equal.
        now rewrite filter_cons_False by exact Hout.
    + exists (ms0 :: mss'). split.
      * constructor; [|exact IH1]. unfold is_layer.
        rewrite lookup_insert_ne by congruence. exact Hl0.
      * simpl. now rewrite !filter_app, IH2.
Qed.

(** C4.  A deposited mark outside [0, width) x [0, height) raises nothing
    in [render], and the grid and the text are what they are when the mark
    is taken out of its layer. *)
Theorem render_ignores_out_of_bounds h self w ht ls mss legend
    (l : loc) (pre post : list Mark) (m : Mark) :
  is_field h self w ht ls ->
  Forall2 (is_layer h) ls mss ->
  l ∈ ls ->
  is_layer h l (pre ++ m :: post) ->
  ~ in_bounds w ht m ->
  let h' := <[l := LayerObj (pre ++ post)]> h in
  exists g : grid,
    Field.render_grid self h = Some (g, h)
    /\ Field.render_grid self h' = Some (g, h')
    /\ Field.render self legend h = Some (Field.render_text g legend, h)
    /\ Field.render self legend h' = Some (Field.render_text g legend, h').
Proof.
  intros Hf Hls _ Hl Hout h'.
  destruct (layers_without w ht h ls mss l pre post m Hls Hl Hout)
    as (mss' & Hls' & Hflt).
  assert (is_field h' self w ht ls) as Hf'.
  { unfold is_field, h'. rewrite lookup_insert_ne; [exact Hf|].
    exact (layer_not_field _ _ _ _ _ _ _ Hl Hf). }
  destruct (paint_all_total w ht (concat mss) (Field.blank_grid w ht)
              (blank_grid_shape w ht)) as (g & Hg & _).
  assert (paint_all w ht (concat mss') (Field.blank_grid w ht) = Some g) as Hg'.
  { rewrite paint_all_filter, Hflt, <- paint_all_filter. exact Hg. }
  destruct (render_run h self w ht ls Hf mss g legend Hls Hg) as [Hr Ht].
  destruct (render_run h' self w ht ls Hf' mss' g legend Hls' Hg') as [Hr' Ht'].
  exists g. repeat split; assumption.
Qed.

Lemma render_ignores_out_of_bounds_witness :
  let h : heap :=
    {[ 1%positive := FieldObj 3 2 [2%positive];
       2%positive := LayerObj [mkMark 0 1 (1 # 2) (py "ask");
                               mkMark 3 (-1) (3 # 4) (py "care");
                               mkMark 2 0 1 (py "turn")] ]} in
  let h' := <[2%positive := LayerObj [mkMark 0 1 (1 # 2) (py "ask");
                                      mkMark 2 0 1 (py "turn")]]> h in
  exists g : grid,
    Field.render_grid 1%positive h = Some (g, h)
    /\ Field.render_grid 1%positive h' = Some (g, h')
    /\ Field.render 1%positive true h = Some (Field.render_text g true, h)
    /\ Field.render 1%positive true h' = Some (Field.render_text g true, h').
Proof.
  intros h.
  apply (render_ignores_out_of_bounds h 1%positive 3 2 [2%positive]
           [[mkMark 0 1 (1 # 2) (py "ask"); mkMark 3 (-1) (3 # 4) (py "care");
             mkMark 2 0 1 (py "turn")]]
           true 2%positive [mkMark 0 1 (1 # 2) (py "ask")]
           [mkMark 2 0 1 (py "turn")] (mkMark 3 (-1) (3 # 4) (py "care"))).
  - reflexivity.
  - repeat constructor.
  - apply list_elem_of_here.
  - reflexivity.
  - unfold in_bounds. simpl. lia.
Defined.

(** ** Rendering reads only *)

(** C8.  [render], with either value of [legend], returns a text and leaves
    the store as it was: the field has the same width, height and layers,
    and every layer the same marks. *)
Theorem render_read_only h self w ht ls mss (legend : bool) :
  is_field h self w ht ls ->
  Forall2 (is_layer h) ls mss ->
  exists (s : str) (h' : heap),
    Field.render self legend h = Some (s, h')
    /\ h' = h
    /\ is_field h' self w ht ls
    /\ Forall2 (is_layer h') ls mss.
Proof.
  intros Hf Hls.
  destruct (paint_all_total w ht (concat mss) (Field.blank_grid w ht)
              (blank_grid_shape w ht)) as (g & Hg & _).
  destruct (render_run h self w ht ls Hf mss g legend Hls Hg) as [_ Ht].
  exists (Field.render_text g legend), h. repeat split; assumption.
Qed.

(** One layer deposited twice, with a mark outside the bounds. *)
Lemma render_read_only_witness :
  let h : heap :=
    {[ 1%positive := FieldObj 4 2 [2%positive; 2%positive];
       2%positive := LayerObj [mkMark 0 1 (1 # 2) (py "ask");
                               mkMark 7 7 (3 # 4) (py "care")] ]} in
  exists (s : str) (h' : heap),
    Field.render 1%positive true h = Some (s, h')
    /\ h' = h
    /\ is_field h' 1%positive 4 2 [2%positive; 2%positive]
    /\ Forall2 (is_layer h') [2%positive; 2%positive]
         [[mkMark 0 1 (1 # 2) (py "ask"); mkMark 7 7 (3 # 4) (py "care")];
          [mkMark 0 1 (1 # 2) (py "ask"); mkMark 7 7 (3 # 4) (py "care")]].
Proof.
  intros h.
  apply (render_read_only h 1%positive 4 2 [2%positive; 2%positive]).
  - reflexivity.
  - repeat constructor.
Defined.
(** ** The path generator *)

Section Inscribe.

Variables (tag : str) (stride : Z) (tone : Q) (origin : Z * Z).

(** The loop of [inscribe], started at its [a]-th round with the marks
    [acc] already in the layer. *)
Lemma inscribe_loop (layer : loc) (n a : nat) (acc : list Mark) (h : heap) :
  for_each (map Z.of_nat (seq a n)) (path tag stride origin a)
    (fun '(x, y) i =>
       let '(px, py) := perturb x y (i + fold_trace [tag]) in
       _ ← Layer.add layer [mkMark px py tone tag];
       mret (advance tag stride i (x, y)))
    (<[layer := LayerObj acc]> h)
  = Some (path tag stride origin (a + n),
          <[layer := LayerObj
                       (acc ++ map (path_mark tag stride tone origin) (seq a n))]> h).
Proof.
  revert a acc. induction n as [|n IH]; intros a acc.
  - rewrite Nat.add_0_r, app_nil_r. reflexivity.
  - change (seq a (S n)) with (a :: seq (S a) n).
    rewrite !map_cons, for_each_cons.
    destruct (path tag stride origin a) as [px0 py0] eqn:Hp.
    cbv beta iota.
    destruct (perturb px0 py0 (Z.of_nat a + fold_trace [tag])) as [qx qy] eqn:Hq.
    erewrite bind_run; cycle 1.
    { erewrite bind_run; cycle 1.
      { apply (Layer_add_run _ layer acc). unfold is_layer. apply lookup_insert_eq. }
      reflexivity. }
    rewrite insert_insert_eq.
    replace (advance tag stride (Z.of_nat a) (px0, py0))
      with (path tag stride origin (S a)) by (simpl; now rewrite Hp).
    rewrite IH. f_equal. f_equal.
    + f_equal. lia.
    + f_equal. f_equal. rewrite <- app_assoc. f_equal. simpl. f_equal.
      unfold path_mark. rewrite Hp. cbn [fst snd]. now rewrite Hq.
Qed.

End Inscribe.

(** C3.  On a field, with [steps >= 0], [inscribe] creates a layer, gives
    it exactly [steps] marks, the [i]-th at
    [perturb(x_i, y_i, i + fold_trace([tag]))] with the given tone and tag,
    where [(x_0, y_0)] is the origin and [(x_(i+1), y_(i+1))] follows from
    the unperturbed [(x_i, y_i)] by the rule of the tag; it appends the
    layer to the layers of the field and returns it; nothing else in the
    store changes, and [steps = 0] gives a layer without marks. *)
Theorem inscribe_path h field w ht ls (origin : Z * Z) (steps : Z)
    (tag : str) (stride : Z) (tone : Q) :
  is_field h field w ht ls ->
  0 <= steps ->
  exists (layer : loc) (marks : list Mark),
    inscribe field origin steps tag stride tone h
    = Some (layer,
            <[field := FieldObj w ht (ls ++ [layer])]>
              (<[layer := LayerObj marks]> h))
    /\ h !! layer = None
    /\ Z.of_nat (length marks) = steps
    /\ (forall i : nat,
          Z.of_nat i < steps ->
          marks !! i = Some (path_mark tag stride tone origin i))
    /\ path tag stride origin 0 = origin
    /\ (forall i : nat,
          path tag stride origin (S i)
          = advance tag stride (Z.of_nat i) (path tag stride origin i))
    /\ (steps = 0 -> marks = []).
Proof.
  intros Hf Hsteps.
  destruct (alloc_run (LayerObj []) h) as [Hnew Hfresh].
  set (layer := fresh (dom h)) in *.
  set (marks := map (path_mark tag stride tone origin) (seq 0 (Z.to_nat steps))).
  exists layer, marks.
  assert (layer <> field) as Hne.
  { intros E. unfold is_field in Hf. rewrite E in Hfresh. congruence. }
  split; [|split; [exact Hfresh|split; [|split; [|split; [|split]]]]].
  - unfold inscribe. destruct origin as [ox oy].
    unfold Layer.new. rewrite (bind_run _ _ _ _ _ Hnew).
    pose proof (inscribe_loop tag stride tone (ox, oy) layer
                  (Z.to_nat steps) 0 [] h) as Hloop.
    simpl path in Hloop. unfold range.
    rewrite (bind_run _ _ _ _ _ Hloop). simpl app. fold marks.
    rewrite (bind_run _ _ _ _ tt
               (Field_deposit_run _ field w ht ls layer
                  ltac:(unfold is_field; rewrite lookup_insert_ne by exact Hne;
                        exact Hf))).
    reflexivity.
  - unfold marks. rewrite length_map, length_seq. lia.
  - intros i Hi. unfold marks.
    change (map (path_mark tag stride tone origin) (seq 0 (Z.to_nat steps)))
      with (path_mark tag stride tone origin <$> seq 0 (Z.to_nat steps)).
    rewrite list_lookup_fmap, lookup_seq_lt by lia. reflexivity.
  - reflexivity.
  - reflexivity.
  - intros ->. reflexivity.
Qed.

Lemma inscribe_path_witness :
  let h : heap := {[ 1%positive := FieldObj 84 20 [] ]} in
  exists (layer : loc) (marks : list Mark),
    inscribe 1%positive (2, 3) 3 (py "ask") 1 (45 # 100) h
    = Some (layer,
            <[1%positive := FieldObj 84 20 ([] ++ [layer])]>
              (<[layer := LayerObj marks]> h))
    /\ h !! layer = None
    /\ Z.of_nat (length marks) = 3
    /\ (forall i : nat,
          Z.of_nat i < 3 ->
          marks !! i = Some (path_mark (py "ask") 1 (45 # 100) (2, 3) i))
    /\ path (py "ask") 1 (2, 3) 0 = (2, 3)
    /\ (forall i : nat,
          path (py "ask") 1 (2, 3) (S i)
          = advance (py "ask") 1 (Z.of_nat i) (path (py "ask") 1 (2, 3) i))
    /\ (3 = 0 -> marks = []).
Proof.
  intros h.
  apply (inscribe_path h 1%positive 84 20 [] (2, 3) 3 (py "ask") 1 (45 # 100)).
  - reflexivity.
  - lia.
Defined.

(** The first three marks of the opening path of the scene, and the empty
    path. *)
Example inscribe_ask_3 :
  inscribe 1%positive (2, 3) 3 (py "ask") 1 (45 # 100)
    {[ 1%positive := FieldObj 84 20 [] ]}
  = Some (2%positive,
          {[ 1%positive := FieldObj 84 20 [2%positive];
             2%positive := LayerObj [mkMark 2 3 (45 # 100) (py "ask");
                                     mkMark 4 2 (45 # 100) (py "ask");
                                     mkMark 3 3 (45 # 100) (py "ask")] ]}).
Proof. vm_compute. reflexivity. Qed.

Example inscribe_zero_steps :
  inscribe 1%positive (2, 3) 0 (py "ask") 1 (45 # 100)
    {[ 1%positive := FieldObj 84 20 [] ]}
  = Some (2%positive,
          {[ 1%positive := FieldObj 84 20 [2%positive];
             2%positive := LayerObj [] ]}).
Proof. vm_compute. reflexivity. Qed.

(** ** Braiding: the dict *)

Lemma bag_get_elem (b : bag) (k : Z * Z) (v : Mark) :
  bag_get b k = Some v -> (k, v) ∈ b.
Proof.
  induction b as [|[k0 v0] b IH]; simpl; [discriminate|].
  destruct (decide (k0 = k)) as [->|Hne].
  - intros [= ->]. apply list_elem_of_here.
  - intros H. apply list_elem_of_further, IH, H.
Qed.

Lemma bag_get_None (b : bag) (k : Z * Z) :
  bag_get b k = None -> k ∉ map fst b.
Proof.
  induction b as [|[k0 v0] b IH]; simpl.
  - intros _ H. inversion H.
  - destruct (decide (k0 = k)) as [->|Hne]; [discriminate|].
    intros H Hin. apply elem_of_cons in Hin as [Hin|Hin]; [congruence|].
    now apply IH.
Qed.

Lemma bag_key_unique (b : bag) (k : Z * Z) (v1 v2 : Mark) :
  NoDup (map fst b) -> (k, v1) ∈ b -> (k, v2) ∈ b -> v1 = v2.
Proof.
  induction b as [|[k0 v0] b IH]; simpl; intros Hnd H1 H2; [inversion H1|].
  apply NoDup_cons in Hnd as [Hk0 Hnd].
  apply elem_of_cons in H1 as [E1|H1];
    apply elem_of_cons in H2 as [E2|H2].
  - congruence.
  - exfalso. apply Hk0. apply (list_elem_of_fmap_2 fst) in H2.
    injection E1 as -> ->. exact H2.
  - exfalso. apply Hk0. apply (list_elem_of_fmap_2 fst) in H1.
    injection E2 as -> ->. exact H1.
  - now apply IH.
Qed.

Lemma bag_set_keys_absent (b : bag) (k : Z * Z) (m : Mark) :
  k ∉ map fst b -> bag_set b k m = b ++ [(k, m)].
Proof.
  induction b as [|[k0 v0] b IH]; simpl; intros Hk; [reflexivity|].
  destruct (decide (k0 = k)) as [->|Hne].
  - exfalso. apply Hk. apply list_elem_of_here.
  - f_equal. apply IH. intros Hin. apply Hk. now apply list_elem_of_further.
Qed.

Lemma bag_set_keys_present (b : bag) (k : Z * Z) (m : Mark) :
  k ∈ map fst b -> map fst (bag_set b k m) = map fst b.
Proof.
  induction b as [|[k0 v0] b IH]; simpl; intros Hk; [inversion Hk|].
  destruct (decide (k0 = k)) as [->|Hne]; [reflexivity|].
  simpl. f_equal. apply IH.
  apply elem_of_cons in Hk as [Hk|Hk]; [congruence|exact Hk].
Qed.

(** With distinct keys, a store keeps every other entry and holds exactly
    the stored mark at its key. *)
Lemma elem_of_bag_set (b : bag) (k k' : Z * Z) (m v' : Mark) :
  NoDup (map fst b) ->
  (k', v') ∈ bag_set b k m
  <-> (k' = k /\ v' = m) \/ (k' <> k /\ (k', v') ∈ b).
Proof.
  induction b as [|[k0 v0] b IH]; simpl; intros Hnd.
  - rewrite list_elem_of_singleton. split.
    + intros [= -> ->]. now left.
    + intros [[-> ->]|[_ H]]; [reflexivity|inversion H].
  - apply NoDup_cons in Hnd as [Hk0 Hnd].
    destruct (decide (k0 = k)) as [->|Hne].
    + rewrite !elem_of_cons. split.
      * intros [[= -> ->]|Hin]; [now left|].
        right. split; [|now right].
        intros ->. apply Hk0.
        apply (list_elem_of_fmap_2 fst) in Hin. exact Hin.
      * intros [[-> ->]|[Hne [[= ? ?]|Hin]]]; [now left|congruence|now right].
    + rewrite !elem_of_cons, (IH Hnd). split.
      * intros [[= -> ->]|[[-> ->]|[Hne' Hin]]].
        -- right. split; [exact Hne|now left].
        -- now left.
        -- right. split; [exact Hne'|now right].
      * intros [[-> ->]|[Hne' [[= -> ->]|Hin]]].
        -- right. now left.
        -- now left.
        -- right. right. now split.
Qed.

Lemma bag_set_NoDup (b : bag) (k : Z * Z) (m : Mark) :
  NoDup (map fst b) -> NoDup (map fst (bag_set b k m)).
Proof.
  intros Hnd. destruct (decide (k ∈ map fst b)) as [Hin|Hout].
  - now rewrite bag_set_keys_present.
  - rewrite bag_set_keys_absent by exact Hout.
    rewrite map_app. simpl. apply NoDup_app. split; [exact Hnd|split].
    + intros k0 Hk0 Hin. apply list_elem_of_singleton in Hin as ->.
      now apply Hout.
    + apply NoDup_singleton.
Qed.

(** ** Braiding: the last highest mark of a cell *)

Lemma last_highest_elem (ms : list Mark) (v : Mark) :
  last_highest ms v -> v ∈ ms.
Proof.
  intros (pre & post & -> & _). apply elem_of_app. right. apply list_elem_of_here.
Qed.

Lemma last_highest_bound (ms : list Mark) (v m : Mark) :
  last_highest ms v -> m ∈ ms -> coord m = coord v -> (tone m <= tone v)%Q.
Proof.
  intros (pre & post & -> & Hpre & Hpost) Hin Hc.
  apply elem_of_app in Hin as [Hin|Hin]; [now apply Hpre|].
  apply elem_of_cons in Hin as [->|Hin]; [lra|].
  apply Qlt_le_weak. now apply Hpost.
Qed.

(** A later mark on another cell changes nothing. *)
Lemma last_highest_snoc_other (ms : list Mark) (v m : Mark) :
  last_highest ms v -> coord m <> coord v -> last_highest (ms ++ [m]) v.
Proof.
  intros (pre & post & -> & Hpre & Hpost) Hne.
  exists pre, (post ++ [m]). split; [now rewrite <- app_assoc|].
  split; [exact Hpre|].
  intros m' Hin Hc. apply elem_of_app in Hin as [Hin|Hin]; [now apply Hpost|].
  apply list_elem_of_singleton in Hin as ->. congruence.
Qed.

(** A later mark of lower tone on the same cell changes nothing. *)
Lemma last_highest_snoc_lower (ms : list Mark) (v m : Mark) :
  last_highest ms v -> (tone m < tone v)%Q -> last_highest (ms ++ [m]) v.
Proof.
  intros (pre & post & -> & Hpre & Hpost) Hlt.
  exists pre, (post ++ [m]). split; [now rewrite <- app_assoc|].
  split; [exact Hpre|].
  intros m' Hin Hc. apply elem_of_app in Hin as [Hin|Hin]; [now apply Hpost|].
  apply list_elem_of_singleton in Hin as ->. exact Hlt.
Qed.

(** A later mark takes the cell when no earlier mark of the cell has a
    higher tone. *)
Lemma last_highest_snoc_new (ms : list Mark) (m : Mark) :
  (forall m', m' ∈ ms -> coord m' = coord m -> (tone m' <= tone m)%Q) ->
  last_highest (ms ++ [m]) m.
Proof.
  intros H. exists ms, []. split; [reflexivity|]. split; [exact H|].
  intros m' Hin. inversion Hin.
Qed.

Lemma bag_inv_nil : bag_inv [] [].
Proof.
  split; [constructor|]. split.
  - intros k v H. inversion H.
  - intros m H. inversion H.
Qed.

Lemma bag_inv_occupied (ms : list Mark) (b : bag) (k : Z * Z) :
  bag_inv ms b -> k ∉ map fst b -> forall m, m ∈ ms -> coord m <> k.
Proof.
  intros (_ & _ & Hocc) Hk m Hin <-.
  destruct (Hocc m Hin) as [v Hv]. apply Hk.
  apply (list_elem_of_fmap_2 fst) in Hv. exact Hv.
Qed.

(** One round of the inner loop of [braid] keeps the invariant. *)
Lemma braid_step_inv (ms : list Mark) (b : bag) (m : Mark) :
  bag_inv ms b -> bag_inv (ms ++ [m]) (braid_step b m).
Proof.
  intros Hinv. pose proof Hinv as (Hnd & Hval & Hocc).
  unfold braid_step. fold (coord m).
  assert (forall b', NoDup (map fst b') ->
            (forall k v, (k, v) ∈ b' -> k = coord v /\ last_highest (ms ++ [m]) v) ->
            (exists v, (coord m, v) ∈ b') ->
            (forall k v, (k, v) ∈ b -> exists v', (k, v') ∈ b') ->
            bag_inv (ms ++ [m]) b') as Hmk.
  { intros b' Hnd' Hval' Hm Hkeep. split; [exact Hnd'|split; [exact Hval'|]].
    intros m' Hin. apply elem_of_app in Hin as [Hin|Hin].
    - destruct (Hocc m' Hin) as [v Hv]. exact (Hkeep _ _ Hv).
    - apply list_elem_of_singleton in Hin as ->. exact Hm. }
  assert (forall k v, k <> coord m -> (k, v) ∈ b ->
            k = coord v /\ last_highest (ms ++ [m]) v) as Hother.
  { intros k v Hne Hin. destruct (Hval k v Hin) as [-> Hlh].
    split; [reflexivity|]. apply last_highest_snoc_other; congruence. }
  assert (forall k v, (k, v) ∈ b ->
            exists v', (k, v') ∈ bag_set b (coord m) m) as Hkeep_set.
  { intros k v Hin. destruct (decide (k = coord m)) as [->|Hne].
    - exists m. apply elem_of_bag_set; [exact Hnd|]. now left.
    - exists v. apply elem_of_bag_set; [exact Hnd|]. now right. }
  destruct (bag_get b (coord m)) as [old|] eqn:Hget.
  - apply bag_get_elem in Hget. destruct (Hval _ _ Hget) as [Hk Hold].
    destruct (Qle_bool (tone old) (tone m)) eqn:Hle.
    + apply Qle_bool_iff in Hle. apply Hmk.
      * now apply bag_set_NoDup.
      * intros k v Hin. apply elem_of_bag_set in Hin; [|exact Hnd].
        destruct Hin as [[-> ->]|[Hne Hin]]; [|now apply Hother].
        split; [reflexivity|]. apply last_highest_snoc_new.
        intros m' Hin' Hc.
        assert (tone m' <= tone old)%Q
          by (apply (last_highest_bound ms); [assumption..|congruence]).
        lra.
      * exists m. apply elem_of_bag_set; [exact Hnd|]. now left.
      * exact Hkeep_set.
    + assert (tone m < tone old)%Q as Hlt.
      { destruct (Qlt_le_dec (tone m) (tone old)) as [Hlt|Hge]; [exact Hlt|].
        apply Qle_bool_iff in Hge. congruence. }
      apply Hmk.
      * exact Hnd.
      * intros k v Hin. destruct (decide (k = coord m)) as [->|Hne];
          [|now apply Hother].
        assert (v = old) as ->.
        { eapply bag_key_unique; eassumption. }
        split; [exact Hk|]. now apply last_highest_snoc_lower.
      * exists old. exact Hget.
      * intros k v Hin. exists v. exact Hin.
  - apply bag_get_None in Hget. apply Hmk.
    + now apply bag_set_NoDup.
    + intros k v Hin. apply elem_of_bag_set in Hin; [|exact Hnd].
      destruct Hin as [[-> ->]|[Hne Hin]]; [|now apply Hother].
      split; [reflexivity|]. apply last_highest_snoc_new.
      intros m' Hin' Hc. exfalso.
      exact (bag_inv_occupied ms b (coord m) Hinv Hget m' Hin' Hc).
    + exists m. apply elem_of_bag_set; [exact Hnd|]. now left.
    + exact Hkeep_set.
Qed.

Lemma braid_fold_inv (ms0 ms : list Mark) (b : bag) :
  bag_inv ms0 b -> bag_inv (ms0 ++ ms) (fold_left braid_step ms b).
Proof.
  revert ms0 b. induction ms as [|m ms IH]; intros ms0 b Hinv; simpl.
  - now rewrite app_nil_r.
  - replace (ms0 ++ m :: ms) with ((ms0 ++ [m]) ++ ms)
      by (now rewrite <- app_assoc).
    apply IH, braid_step_inv, Hinv.
Qed.

Lemma braided_inv (ms : list Mark) :
  bag_inv ms (fold_left braid_step ms []).
Proof. exact (braid_fold_inv [] ms [] bag_inv_nil). Qed.

Lemma bag_coords (ms : list Mark) (b : bag) :
  bag_inv ms b -> map coord (map snd b) = map fst b.
Proof.
  intros (_ & Hval & _). rewrite map_map. apply map_ext_in.
  intros [k v] Hin. apply list_elem_of_In in Hin.
  destruct (Hval k v Hin) as [-> _]. reflexivity.
Qed.

Lemma braided_NoDup (ms : list Mark) : NoDup (map coord (braided ms)).
Proof.
  unfold braided. rewrite (bag_coords ms) by apply braided_inv.
  apply (braided_inv ms).
Qed.

Lemma braided_last_highest (ms : list Mark) (v : Mark) :
  v ∈ braided ms -> last_highest ms v.
Proof.
  unfold braided. intros Hin.
  apply list_elem_of_fmap in Hin as ([k v'] & -> & Hin).
  destruct (braided_inv ms) as (_ & Hval & _).
  apply (Hval k v' Hin).
Qed.

Lemma braided_occupied (ms : list Mark) (m : Mark) :
  m ∈ ms -> exists v, v ∈ braided ms /\ coord v = coord m.
Proof.
  intros Hin. destruct (braided_inv ms) as (_ & Hval & Hocc).
  destruct (Hocc m Hin) as [v Hv]. exists v. split.
  - unfold braided. apply (list_elem_of_fmap_2 snd) in Hv. exact Hv.
  - destruct (Hval _ _ Hv) as [Hk _]. now symmetry.
Qed.

Lemma filter_none {A} (P : A -> Prop) `{forall a, Decision (P a)} (l : list A) :
  (forall u, u ∈ l -> ~ P u) -> filter P l = [].
Proof.
  induction l as [|a l IH]; intros Hno; [reflexivity|].
  rewrite filter_cons_False by (apply Hno, list_elem_of_here).
  apply IH. intros u Hu. apply Hno. now apply list_elem_of_further.
Qed.

(** In a list with distinct keys, the elements of one key are one element. *)
Lemma filter_key_unique {A K} `{EqDecision K} (f : A -> K) (l : list A) (v : A) :
  NoDup (map f l) -> v ∈ l -> filter (fun a => f a = f v) l = [v].
Proof.
  induction l as [|a l IH]; simpl; intros Hnd Hin; [inversion Hin|].
  apply NoDup_cons in Hnd as [Ha Hnd].
  assert (forall u, u ∈ l -> f a <> f u) as Hfresh.
  { intros u Hu E. apply Ha. rewrite E.
    apply (list_elem_of_fmap_2 f) in Hu. exact Hu. }
  apply elem_of_cons in Hin as [->|Hin].
  - rewrite filter_cons_True by reflexivity. f_equal.
    apply filter_none. intros u Hu E.
    exact (Hfresh u Hu (eq_sym E)).
  - rewrite filter_cons_False by (apply Hfresh, Hin).
    now apply IH.
Qed.

Lemma filter_key_absent {A K} `{EqDecision K} (f : A -> K) (l : list A) (k : K) :
  k ∉ map f l -> filter (fun a => f a = k) l = [].
Proof.
  intros Hk. apply filter_none. intros u Hu E.
  apply Hk. rewrite <- E. apply (list_elem_of_fmap_2 f) in Hu. exact Hu.
Qed.

(** The last highest mark of a cell is one mark. *)
Lemma last_highest_unique (ms : list Mark) (v v' : Mark) :
  last_highest ms v -> last_highest ms v' -> coord v = coord v' -> v = v'.
Proof.
  intros (pre & post & E & Hpre & Hpost) (pre' & post' & E' & Hpre' & Hpost') Hc.
  assert (ms !! length pre = Some v) as Hv
      by (rewrite E; apply list_lookup_middle; reflexivity).
  assert (ms !! length pre' = Some v') as Hv'
      by (rewrite E'; apply list_lookup_middle; reflexivity).
  destruct (Nat.lt_trichotomy (length pre) (length pre')) as [Hlt|[Heq|Hgt]].
  - exfalso.
    assert (v ∈ pre') as Hin.
    { rewrite E' in Hv. rewrite lookup_app_l in Hv by exact Hlt.
      eapply list_elem_of_lookup_2; exact Hv. }
    assert (v' ∈ post) as Hin'.
    { rewrite E in Hv'. rewrite lookup_app_r in Hv' by lia.
      destruct (length pre' - length pre)%nat as [|n] eqn:En; [lia|].
      simpl in Hv'. eapply list_elem_of_lookup_2; exact Hv'. }
    pose proof (Hpre' v Hin Hc). pose proof (Hpost v' Hin' (eq_sym Hc)). lra.
  - rewrite Heq in Hv. congruence.
  - exfalso.
    assert (v' ∈ pre) as Hin.
    { rewrite E in Hv'. rewrite lookup_app_l in Hv' by exact Hgt.
      eapply list_elem_of_lookup_2; exact Hv'. }
    assert (v ∈ post') as Hin'.
    { rewrite E' in Hv. rewrite lookup_app_r in Hv by lia.
      destruct (length pre - length pre')%nat as [|n] eqn:En; [lia|].
      simpl in Hv. eapply list_elem_of_lookup_2; exact Hv. }
    pose proof (Hpre v' Hin (eq_sym Hc)). pose proof (Hpost' v Hin' Hc). lra.
Qed.

(** ** Braiding on the store *)

Lemma braid_loop (h : heap) (layers : list loc) (mss : list (list Mark))
    (b : bag) :
  Forall2 (is_layer h) layers mss ->
  for_each layers b (fun b layer =>
      marks ← Layer.get_marks layer;
      mret (fold_left braid_step marks b)) h
  = Some (fold_left braid_step (concat mss) b, h).
Proof.
  intros Hls. revert b.
  induction Hls as [|l ms layers mss Hl Hls IH]; intros b.
  - reflexivity.
  - rewrite for_each_cons.
    erewrite bind_run; cycle 1.
    { erewrite bind_run; [|apply get_marks_run, Hl]. reflexivity. }
    rewrite IH. simpl. now rewrite fold_left_app.
Qed.

Lemma braid_run (h : heap) (layers : list loc) (mss : list (list Mark)) :
  Forall2 (is_layer h) layers mss ->
  braid layers h
  = Some (fresh (dom h),
          <[fresh (dom h) := LayerObj (braided (concat mss))]> h)
  /\ h !! fresh (dom h) = None.
Proof.
  intros Hls. destruct (alloc_run (LayerObj []) h) as [Hnew Hfresh].
  split; [|exact Hfresh].
  set (merged := fresh (dom h)) in *.
  assert (Forall2 (is_layer (<[merged := LayerObj []]> h)) layers mss) as Hls'.
  { eapply Forall2_impl; [exact Hls|]. intros l ms Hl. unfold is_layer in *.
    rewrite lookup_insert_ne; [exact Hl|]. intros E. rewrite E in Hfresh. congruence. }
  unfold braid, Layer.new.
  rewrite (bind_run _ _ _ _ _ Hnew).
  rewrite (bind_run _ _ _ _ _ (braid_loop _ layers mss [] Hls')).
  erewrite bind_run; cycle 1.
  { unfold Layer.set_marks. rewrite lookup_insert_eq. reflexivity. }
  rewrite insert_insert_eq. reflexivity.
Qed.

(** C6.  [braid] returns a new layer that holds, for each cell occupied by
    a mark of the supplied layers, exactly one mark: the mark of highest
    tone among all the marks of that cell, and among those of highest tone
    the one processed last, the layers being scanned left to right and the
    marks of a layer in order.  It holds no mark on any other cell. *)
Theorem braid_keeps_highest (h : heap) (layers : list loc)
    (mss : list (list Mark)) :
  Forall2 (is_layer h) layers mss ->
  exists (merged : loc) (out : list Mark),
    braid layers h = Some (merged, <[merged := LayerObj out]> h)
    /\ h !! merged = None
    /\ (forall c : Z * Z,
          c ∈ map coord (concat mss) ->
          exists v : Mark,
            filter (fun m => coord m = c) out = [v]
            /\ coord v = c
            /\ last_highest (concat mss) v
            /\ (forall v' : Mark,
                  last_highest (concat mss) v' -> coord v' = c -> v' = v))
    /\ (forall c : Z * Z,
          c ∉ map coord (concat mss) ->
          filter (fun m => coord m = c) out = []).
Proof.
  intros Hls. destruct (braid_run h layers mss Hls) as [Hrun Hfresh].
  exists (fresh (dom h)), (braided (concat mss)).
  split; [exact Hrun|split; [exact Hfresh|split]].
  - intros c Hc. apply list_elem_of_fmap in Hc as (m & -> & Hm).
    destruct (braided_occupied _ m Hm) as (v & Hv & Hvc).
    exists v. split; [|split; [exact Hvc|split]].
    + rewrite <- Hvc. apply filter_key_unique; [apply braided_NoDup|exact Hv].
    + now apply braided_last_highest.
    + intros v' Hv' Hc'. apply (last_highest_unique (concat mss)).
      * exact Hv'.
      * now apply braided_last_highest.
      * congruence.
  - intros c Hc. apply filter_key_absent. intros Hin. apply Hc.
    apply list_elem_of_fmap in Hin as (v & -> & Hv).
    apply braided_last_highest, last_highest_elem in Hv.
    apply (list_elem_of_fmap_2 coord) in Hv. exact Hv.
Qed.

(** C10.  The layer that [braid] returns is a new object whose marks have
    pairwise distinct coordinates, each of them a mark of one of the
    supplied layers; every object of the store before the call, so every
    supplied layer and every field, is the same after it, and no field is
    created. *)
Theorem braid_invariants (h : heap) (layers : list loc)
    (mss : list (list Mark)) :
  Forall2 (is_layer h) layers mss ->
  exists (merged : loc) (out : list Mark) (h' : heap),
    braid layers h = Some (merged, h')
    /\ h !! merged = None
    /\ is_layer h' merged out
    /\ NoDup (map coord out)
    /\ (forall m : Mark, m ∈ out -> m ∈ concat mss)
    /\ (forall (l : loc) (o : obj), h !! l = Some o -> h' !! l = Some o)
    /\ Forall2 (is_layer h') layers mss
    /\ (forall (f : loc) (w ht : Z) (ls : list loc),
          is_field h' f w ht ls <-> is_field h f w ht ls).
Proof.
  intros Hls. destruct (braid_run h layers mss Hls) as [Hrun Hfresh].
  set (merged := fresh (dom h)) in *.
  exists merged, (braided (concat mss)),
    (<[merged := LayerObj (braided (concat mss))]> h).
  assert (forall (l : loc) (o : obj), h !! l = Some o ->
            <[merged := LayerObj (braided (concat mss))]> h !! l = Some o) as Hkeep.
  { intros l o Hl. rewrite lookup_insert_ne; [exact Hl|].
    intros E. rewrite E in Hfresh. congruence. }
  split; [exact Hrun|split; [exact Hfresh|]].
  split; [apply lookup_insert_eq|].
  split; [apply braided_NoDup|].
  split; [intros m Hm; apply last_highest_elem, braided_last_highest, Hm|].
  split; [exact Hkeep|].
  split.
  - eapply Forall2_impl; [exact Hls|]. intros l ms Hl. apply Hkeep, Hl.
  - intros f w ht ls. unfold is_field. split; [|apply Hkeep].
    destruct (decide (merged = f)) as [<-|Hne].
    + rewrite lookup_insert_eq. discriminate.
    + now rewrite lookup_insert_ne.
Qed.

Lemma braid_keeps_highest_witness :
  let h : heap :=
    {[ 2%positive := LayerObj [mkMark 0 0 (1 # 2) (py "ask");
                               mkMark 1 0 (1 # 4) (py "care")];
       3%positive := LayerObj [mkMark 0 0 (1 # 2) (py "turn");
                               mkMark 1 0 (1 # 8) (py "doubt")] ]} in
  let ms := [mkMark 0 0 (1 # 2) (py "ask"); mkMark 1 0 (1 # 4) (py "care");
             mkMark 0 0 (1 # 2) (py "turn"); mkMark 1 0 (1 # 8) (py "doubt")] in
  exists (merged : loc) (out : list Mark),
    braid [2%positive; 3%positive] h
    = Some (merged, <[merged := LayerObj out]> h)
    /\ h !! merged = None
    /\ (forall c : Z * Z,
          c ∈ map coord ms ->
          exists v : Mark,
            filter (fun m => coord m = c) out = [v]
            /\ coord v = c
            /\ last_highest ms v
            /\ (forall v' : Mark, last_highest ms v' -> coord v' = c -> v' = v))
    /\ (forall c : Z * Z,
          c ∉ map coord ms -> filter (fun m => coord m = c) out = []).
Proof.
  intros h ms.
  apply (braid_keeps_highest h [2%positive; 3%positive]
           [[mkMark 0 0 (1 # 2) (py "ask"); mkMark 1 0 (1 # 4) (py "care")];
            [mkMark 0 0 (1 # 2) (py "turn"); mkMark 1 0 (1 # 8) (py "doubt")]]).
  repeat constructor.
Defined.

Lemma braid_invariants_witness :
  let h : heap :=
    {[ 1%positive := FieldObj 3 3 [2%positive];
       2%positive := LayerObj [mkMark 0 0 (1 # 2) (py "ask");
                               mkMark 1 0 (1 # 4) (py "care")];
       3%positive := LayerObj [mkMark 0 0 (1 # 2) (py "turn");
                               mkMark 1 0 (1 # 8) (py "doubt")] ]} in
  let mss := [[mkMark 0 0 (1 # 2) (py "ask"); mkMark 1 0 (1 # 4) (py "care")];
              [mkMark 0 0 (1 # 2) (py "turn"); mkMark 1 0 (1 # 8) (py "doubt")]] in
  exists (merged : loc) (out : list Mark) (h' : heap),
    braid [2%positive; 3%positive] h = Some (merged, h')
    /\ h !! merged = None
    /\ is_layer h' merged out
    /\ NoDup (map coord out)
    /\ (forall m : Mark, m ∈ out -> m ∈ concat mss)
    /\ (forall (l : loc) (o : obj), h !! l = Some o -> h' !! l = Some o)
    /\ Forall2 (is_layer h') [2%positive; 3%positive] mss
    /\ (forall (f : loc) (w ht : Z) (ls : list loc),
          is_field h' f w ht ls <-> is_field h f w ht ls).
Proof.
  intros h mss.
  apply (braid_invariants h [2%positive; 3%positive] mss).
  repeat constructor.
Defined.

(** Equal tones on cell (0, 0): the later mark takes the place of the
    earlier one; on cell (1, 0) the higher tone stays. *)
Example braid_two_layers :
  braid [2%positive; 3%positive]
    {[ 2%positive := LayerObj [mkMark 0 0 (1 # 2) (py "ask");
                               mkMark 1 0 (1 # 4) (py "care")];
       3%positive := LayerObj [mkMark 0 0 (1 # 2) (py "turn");
                               mkMark 1 0 (1 # 8) (py "doubt")] ]}
  = Some (4%positive,
          {[ 4%positive := LayerObj [mkMark 0 0 (1 # 2) (py "turn");
                                     mkMark 1 0 (1 # 4) (py "care")];
             2%positive := LayerObj [mkMark 0 0 (1 # 2) (py "ask");
                                     mkMark 1 0 (1 # 4) (py "care")];
             3%positive := LayerObj [mkMark 0 0 (1 # 2) (py "turn");
                                     mkMark 1 0 (1 # 8) (py "doubt")] ]}).
Proof. vm_compute. reflexivity. Qed.

(** * Further properties of the code *)

(** ** The trace fold *)

Lemma fold_trace_step (h : Z) : Z.shiftl h 5 - h = 31 * h.
Proof. rewrite Z.shiftl_mul_pow2 by lia. change (2 ^ 5) with 32. lia. Qed.

Lemma fold_trace_from (ts : list str) (h : Z) :
  fold_left
    (fun h t => Z.lxor (Z.shiftl h 5 - h)
                  (match t with c :: _ => c | [] => 0 end)) ts h
  = fold_left (fun h t => Z.lxor (31 * h) (first_code t)) ts h.
Proof.
  revert h. induction ts as [|t ts IH]; intros h; simpl; [reflexivity|].
  rewrite fold_trace_step. apply IH.
Qed.

(** X1.  [fold_trace] is the multiplier-31 hash of the first characters:
    the empty trace folds to 0 and one more string [t] turns the fold [h]
    into [(31 * h) xor c], where [c] is the code of the first character of
    [t], or 0 when [t] is empty; a one-string trace folds to that [c]. *)
Theorem fold_trace_snoc (ts : list str) (t : str) :
  fold_trace [] = 0
  /\ fold_trace (ts ++ [t]) = Z.lxor (31 * fold_trace ts) (first_code t)
  /\ fold_trace [t] = first_code t.
Proof.
  split; [reflexivity|]. split.
  - unfold fold_trace. rewrite !fold_trace_from, fold_left_app. reflexivity.
  - unfold fold_trace. rewrite fold_trace_from. simpl.
    apply Z.lxor_0_l.
Qed.

(** X2.  [fold_trace] reads the first character of each string only: two
    traces of the same length whose strings agree on their first
    characters fold to the same number (so the tags 'ask' and 'answer' give
    [inscribe] the same seeds). *)
Theorem fold_trace_first_characters (ts ts' : list str) :
  map first_code ts = map first_code ts' ->
  fold_trace ts = fold_trace ts'.
Proof.
  unfold fold_trace. rewrite !fold_trace_from. generalize 0.
  revert ts'. induction ts as [|t ts IH]; intros [|t' ts'] h E;
    try discriminate; [reflexivity|].
  simpl in *. injection E as E1 E2. rewrite E1. now apply IH.
Qed.

Lemma fold_trace_first_characters_witness :
  fold_trace [py "ask"; py ""; py "turn"]
  = fold_trace [py "answer"; []; py "t"].
Proof.
  apply (fold_trace_first_characters [py "ask"; py ""; py "turn"]
           [py "answer"; []; py "t"]).
  reflexivity.
Defined.

(** ** The 32-bit mix *)

Lemma land_mask (a : Z) : Z.land a 4294967295 = a mod 2 ^ 32.
Proof. change 4294967295 with (Z.ones 32). apply Z.land_ones. lia. Qed.

(** X3.  [perturb] reads its seed modulo 2^32: seeds that differ by a
    multiple of 2^32 give the same move. *)
Theorem perturb_seed_period (px py seed k : Z) :
  perturb px py (seed + k * 2 ^ 32) = perturb px py seed.
Proof.
  unfold perturb. rewrite !land_mask.
  replace ((seed + k * 2 ^ 32) * 6364136223846793005 + 1)
    with (seed * 6364136223846793005 + 1
          + (k * 6364136223846793005) * 2 ^ 32) by lia.
  rewrite Z.mod_add by lia. reflexivity.
Qed.

(** ** The symbol of a tone outside [0, 1] *)

Lemma clamp_cases (t : Q) :
  ((t < 1 # 2)%Q -> (clamp t < 1 # 2)%Q)
  /\ ((1 # 2 <= t)%Q -> (t < 1)%Q -> (1 # 2 <= clamp t)%Q /\ (clamp t < 1)%Q)
  /\ ((1 <= t)%Q -> (1 <= clamp t)%Q).
Proof.
  unfold clamp, py_max, py_min.
  destruct (Qlt_le_dec t 1); destruct (Qlt_le_dec 0 _);
    repeat split; intros; lra.
Qed.

(** X4.  [symbol] by the tone itself: one base character below 0.5, also
    for a negative tone, two from 0.5 up to but not including 1, three
    from 1 on, also above 1; the base character of a tag that is not in the
    palette is '?'. *)
Theorem symbol_by_tone (tag : str) (t : Q) :
  exists ch : Z,
    base_of tag = [ch]
    /\ (PALETTE !! tag = None -> ch = 63)
    /\ symbol tag t
       = if Qlt_le_dec t (1 # 2) then [ch]
         else if Qlt_le_dec t 1 then [ch; ch]
         else [ch; ch; ch].
Proof.
  destruct (base_of_single tag) as [ch Hch]. exists ch.
  split; [exact Hch|]. split.
  - intros Hnone. unfold base_of in Hch. rewrite Hnone in Hch.
    simpl in Hch. now injection Hch as <-.
  - unfold symbol. rewrite Hch, str_mul_single, intensity_level.
    destruct (clamp_cases t) as (Hlow & Hmid & Hhigh).
    destruct (Qlt_le_dec t (1 # 2)) as [Ha|Ha];
      [|destruct (Qlt_le_dec t 1) as [Hb|Hb]].
    + now rewrite (level_low _ (Hlow Ha)).
    + destruct (Hmid Ha Hb) as [H1 H2]. now rewrite (level_mid _ H1 H2).
    + now rewrite (level_high _ (Hhigh Hb)).
Qed.

(** ** Layers are held by reference *)

(** X5.  Two [add]s on a layer are one [add] of the two runs of marks, in
    order, and they raise together. *)
Theorem Layer_add_app (l : loc) (a b : list Mark) (h : heap) :
  (Layer.add l a ≫= fun _ => Layer.add l b) h = Layer.add l (a ++ b) h.
Proof.
  destruct (h !! l) as [[ms|w ht ls]|] eqn:E.
  - rewrite (bind_run _ _ _ _ _ (Layer_add_run h l ms a E)).
    rewrite (Layer_add_run _ l (ms ++ a) b)
      by (unfold is_layer; apply lookup_insert_eq).
    rewrite (Layer_add_run h l ms (a ++ b) E).
    now rewrite insert_insert_eq, app_assoc.
  - unfold mbind, M_bind, Layer.add, mbind, M_bind, Layer.get_marks.
    now rewrite E.
  - unfold mbind, M_bind, Layer.add, mbind, M_bind, Layer.get_marks.
    now rewrite E.
Qed.

(** X6.  A field holds its layers by reference: depositing a layer and then
    adding marks to it leaves the same store as adding the marks first and
    depositing then, so marks added after the deposit are rendered. *)
Theorem deposit_add_commute (h : heap) (f l : loc) (w ht : Z)
    (ls : list loc) (ms0 ms : list Mark) :
  is_field h f w ht ls ->
  is_layer h l ms0 ->
  (Field.deposit f l ≫= fun _ => Layer.add l ms) h
  = (Layer.add l ms ≫= fun _ => Field.deposit f l) h
  /\ (Field.deposit f l ≫= fun _ => Layer.add l ms) h
     = Some (tt, <[l := LayerObj (ms0 ++ ms)]>
                   (<[f := FieldObj w ht (ls ++ [l])]> h)).
Proof.
  intros Hf Hl.
  pose proof (layer_not_field _ _ _ _ _ _ _ Hl Hf) as Hne.
  assert ((Field.deposit f l ≫= fun _ => Layer.add l ms) h
          = Some (tt, <[l := LayerObj (ms0 ++ ms)]>
                        (<[f := FieldObj w ht (ls ++ [l])]> h))) as E1.
  { rewrite (bind_run _ _ _ _ _ (Field_deposit_run h f w ht ls l Hf)).
    apply Layer_add_run. unfold is_layer.
    rewrite lookup_insert_ne by congruence. exact Hl. }
  split; [|exact E1]. rewrite E1.
  rewrite (bind_run _ _ _ _ _ (Layer_add_run h l ms0 ms Hl)).
  rewrite (Field_deposit_run _ f w ht ls l)
    by (unfold is_field; rewrite lookup_insert_ne by exact Hne; exact Hf).
  now rewrite insert_insert_ne by congruence.
Qed.

Lemma deposit_add_commute_witness :
  let h : heap :=
    {[ 1%positive := FieldObj 3 3 [];
       2%positive := LayerObj [mkMark 0 0 (1 # 2) (py "ask")] ]} in
  let ms := [mkMark 1 1 (3 # 4) (py "care")] in
  (Field.deposit 1%positive 2%positive ≫= fun _ => Layer.add 2%positive ms) h
  = (Layer.add 2%positive ms ≫= fun _ => Field.deposit 1%positive 2%positive) h
  /\ (Field.deposit 1%positive 2%positive ≫= fun _ => Layer.add 2%positive ms) h
     = Some (tt, <[2%positive := LayerObj ([mkMark 0 0 (1 # 2) (py "ask")] ++ ms)]>
                   (<[1%positive := FieldObj 3 3 ([] ++ [2%positive])]> h)).
Proof.
  intros h ms.
  apply (deposit_add_commute h 1%positive 2%positive 3 3 []
           [mkMark 0 0 (1 # 2) (py "ask")] ms); reflexivity.
Defined.

(** ** Rendering, cell by cell *)

Lemma cell_at_put_ne (g : grid) (cx cy cx' cy' : Z) (c : cell) :
  0 <= cx -> 0 <= cy -> (cx', cy') <> (cx, cy) ->
  cell_at (put g cx cy c) cx' cy' = cell_at g cx' cy'.
Proof.
  intros Hx Hy Hne. unfold cell_at, put.
  destruct ((0 <=? cx') && (0 <=? cy')) eqn:E; [|reflexivity].
  apply andb_true_iff in E as [Ex Ey].
  destruct (g !! Z.to_nat cy) as [row|] eqn:Hrow; [|reflexivity].
  destruct (decide (Z.to_nat cy' = Z.to_nat cy)) as [Ecy|Ncy].
  - rewrite Ecy. rewrite list_lookup_insert_eq
      by (eapply lookup_lt_Some; exact Hrow).
    rewrite Hrow. simpl.
    apply list_lookup_insert_ne. intros Ecx. apply Hne. f_equal; lia.
  - now rewrite list_lookup_insert_ne by congruence.
Qed.

Lemma cell_fold_app (k : Z * Z) (ms1 ms2 : list Mark) (c : cell) :
  cell_fold k (ms1 ++ ms2) c = cell_fold k ms2 (cell_fold k ms1 c).
Proof. unfold cell_fold. apply fold_left_app. Qed.

(** Marks of lower tone than the cell's leave the cell as it is. *)
Lemma cell_fold_keep (k : Z * Z) (ms : list Mark) (c : cell) :
  (forall m, m ∈ ms -> coord m = k -> (tone m < fst c)%Q) ->
  cell_fold k ms c = c.
Proof.
  induction ms as [|m ms IH]; intros Hlow; [reflexivity|].
  unfold cell_fold. simpl. fold (cell_fold k ms).
  destruct (decide (coord m = k)) as [E|N].
  - unfold over. rewrite Qle_bool_false
      by (apply Hlow; [apply list_elem_of_here|exact E]).
    apply IH. intros m' Hin. apply Hlow. now apply list_elem_of_further.
  - apply IH. intros m' Hin. apply Hlow. now apply list_elem_of_further.
Qed.

(** The tone of the cell never exceeds a bound on its start and on the
    marks. *)
Lemma cell_fold_bound (k : Z * Z) (ms : list Mark) (c : cell) (t : Q) :
  (fst c <= t)%Q ->
  (forall m, m ∈ ms -> coord m = k -> (tone m <= t)%Q) ->
  (fst (cell_fold k ms c) <= t)%Q.
Proof.
  revert c. induction ms as [|m ms IH]; intros c Hc Hms; [exact Hc|].
  unfold cell_fold. simpl. fold (cell_fold k ms).
  apply IH.
  - destruct (decide (coord m = k)) as [E|N]; [|exact Hc].
    unfold over. destruct (Qle_bool (fst c) (tone m)); [|exact Hc].
    simpl. apply Hms; [apply list_elem_of_here|exact E].
  - intros m' Hin. apply Hms. now apply list_elem_of_further.
Qed.

(** From a blank cell, the last mark of highest tone is what stays, when
    its tone is not negative. *)
Lemma cell_fold_last_highest (ms : list Mark) (v : Mark) :
  last_highest ms v -> (0 <= tone v)%Q ->
  cell_fold (coord v) ms Field.blank = (tone v, symbol (tag v) (tone v)).
Proof.
  intros (pre & post & -> & Hpre & Hpost) H0.
  rewrite cell_fold_app.
  assert (fst (cell_fold (coord v) pre Field.blank) <= tone v)%Q as Hb
      by (apply cell_fold_bound; [exact H0|exact Hpre]).
  unfold cell_fold at 1. simpl. fold (cell_fold (coord v) post).
  destruct (decide (coord v = coord v)) as [_|N]; [|congruence].
  unfold over. rewrite (Qle_bool_true _ _ Hb).
  apply cell_fold_keep. exact Hpost.
Qed.

Section Cells.

Variables w ht : Z.

(** What [paint] does to every cell. *)
Lemma paint_cells (g : grid) (m : Mark) :
  shape w ht g ->
  exists g',
    Field.paint w ht g m = Some g' /\ shape w ht g'
    /\ forall cx cy c,
         0 <= cx < w -> 0 <= cy < ht ->
         cell_at g cx cy = Some c ->
         cell_at g' cx cy
         = Some (if decide (coord m = (cx, cy)) then over c m else c).
Proof.
  intros Hs. destruct (decide (in_bounds w ht m)) as [Hin|Hout].
  - destruct (paint_in w ht g m Hs Hin) as (old & Hold & Hp).
    rewrite Hp. eexists. split; [reflexivity|].
    pose proof Hin as [Hx Hy].
    split; [destruct (Qle_bool _ _); [now apply put_shape|exact Hs]|].
    intros cx cy c Hcx Hcy Hc.
    destruct (decide (coord m = (cx, cy))) as [E|N].
    + injection E as <- <-. assert (old = c) as -> by congruence.
      unfold over. destruct (Qle_bool (fst c) (tone m)); [|exact Hc].
      now apply (cell_at_put_eq w ht).
    + destruct (Qle_bool _ _); [|exact Hc].
      rewrite cell_at_put_ne; [exact Hc|lia|lia|].
      intros E. apply N. unfold coord. congruence.
  - rewrite (paint_out w ht g m Hout). exists g.
    split; [reflexivity|split; [exact Hs|]].
    intros cx cy c Hcx Hcy Hc.
    destruct (decide (coord m = (cx, cy))) as [E|N]; [|exact Hc].
    exfalso. apply Hout. injection E as <- <-. split; assumption.
Qed.

(** What the two loops do to every cell. *)
Lemma paint_all_cells (ms : list Mark) (g : grid) :
  shape w ht g ->
  exists g',
    paint_all w ht ms g = Some g' /\ shape w ht g'
    /\ forall cx cy c,
         0 <= cx < w -> 0 <= cy < ht ->
         cell_at g cx cy = Some c ->
         cell_at g' cx cy = Some (cell_fold (cx, cy) ms c).
Proof.
  revert g. induction ms as [|m ms IH]; intros g Hs.
  - exists g. split; [reflexivity|split; [exact Hs|]]. intros; assumption.
  - destruct (paint_cells g m Hs) as (g1 & Hp & Hs1 & Hc1).
    destruct (IH g1 Hs1) as (g2 & Hp2 & Hs2 & Hc2).
    exists g2. split; [simpl; rewrite Hp; exact Hp2|split; [exact Hs2|]].
    intros cx cy c Hcx Hcy Hc.
    rewrite (Hc2 cx cy _ Hcx Hcy (Hc1 cx cy c Hcx Hcy Hc)).
    reflexivity.
Qed.

Lemma paint_all_blank_cells (ms : list Mark) :
  exists g,
    paint_all w ht ms (Field.blank_grid w ht) = Some g /\ shape w ht g
    /\ forall cx cy,
         0 <= cx < w -> 0 <= cy < ht ->
         cell_at g cx cy = Some (cell_fold (cx, cy) ms Field.blank).
Proof.
  destruct (paint_all_cells ms _ (blank_grid_shape w ht)) as (g & Hp & Hs & Hc).
  exists g. split; [exact Hp|split; [exact Hs|]].
  intros cx cy Hcx Hcy. apply Hc; [assumption..|now apply cell_at_blank].
Qed.

(** Two grids of one shape with the same cells are one grid. *)
Lemma grid_ext (g1 g2 : grid) :
  shape w ht g1 -> shape w ht g2 ->
  (forall cx cy, 0 <= cx < w -> 0 <= cy < ht ->
                 cell_at g1 cx cy = cell_at g2 cx cy) ->
  g1 = g2.
Proof.
  intros Hs1 Hs2 Hc. pose proof Hs1 as [Hl1 _]. pose proof Hs2 as [Hl2 _].
  apply list_eq. intros i.
  destruct (decide (i < length g1)%nat) as [Hi|Hi].
  - destruct (lookup_lt_is_Some_2 g1 i Hi) as [r1 Hr1].
    destruct (lookup_lt_is_Some_2 g2 i ltac:(lia)) as [r2 Hr2].
    rewrite Hr1, Hr2. f_equal.
    pose proof (shape_row _ _ _ _ _ Hs1 Hr1) as Hlr1.
    pose proof (shape_row _ _ _ _ _ Hs2 Hr2) as Hlr2.
    apply list_eq. intros j.
    destruct (decide (j < length r1)%nat) as [Hj|Hj].
    + specialize (Hc (Z.of_nat j) (Z.of_nat i) ltac:(lia) ltac:(lia)).
      unfold cell_at in Hc.
      replace ((0 <=? Z.of_nat j) && (0 <=? Z.of_nat i)) with true in Hc
        by (symmetry; rewrite ?andb_true_iff; lia).
      rewrite !Nat2Z.id, Hr1, Hr2 in Hc. exact Hc.
    + rewrite !lookup_ge_None_2 by lia. reflexivity.
  - rewrite !lookup_ge_None_2 by lia. reflexivity.
Qed.

End Cells.

(** X7.  Compositing, for any number of marks: on an in-bounds cell
    [render] shows the symbol of the mark of highest tone among all the
    marks deposited on that cell, the last of them in deposit order when
    several have that tone, provided that tone is not negative; the cell is
    blank when every mark on it has a negative tone, and so when there is
    none. *)
Theorem render_compositing h self w ht ls mss legend (cx cy : Z) :
  is_field h self w ht ls ->
  Forall2 (is_layer h) ls mss ->
  0 <= cx < w -> 0 <= cy < ht ->
  (forall v : Mark,
      last_highest (concat mss) v -> coord v = (cx, cy) ->
      (0 <= tone v)%Q ->
      shows h self legend cx cy (symbol (tag v) (tone v)))
  /\ ((forall m : Mark,
         m ∈ concat mss -> coord m = (cx, cy) -> (tone m < 0)%Q) ->
      shows h self legend cx cy (py " ")).
Proof.
  intros Hf Hls Hcx Hcy.
  destruct (paint_all_blank_cells w ht (concat mss)) as (g & Hg & _ & Hc).
  specialize (Hc cx cy Hcx Hcy). split.
  - intros v Hv Hk H0. rewrite <- Hk, (cell_fold_last_highest _ _ Hv H0) in Hc.
    exact (render_shows h self w ht ls Hf mss g legend _ _ _ _ Hls Hg Hc).
  - intros Hneg. rewrite cell_fold_keep in Hc by exact Hneg.
    exact (render_shows h self w ht ls Hf mss g legend _ _ _ _ Hls Hg Hc).
Qed.

(** Three marks on cell (1, 0), in two layers, of tones 0.5, 0.75 and
    0.75: the last one is shown. *)
Lemma render_compositing_witness :
  let h : heap :=
    {[ 1%positive := FieldObj 2 1 [2%positive; 3%positive];
       2%positive := LayerObj [mkMark 1 0 (1 # 2) (py "ask");
                               mkMark 1 0 (3 # 4) (py "care")];
       3%positive := LayerObj [mkMark 1 0 (3 # 4) (py "doubt")] ]} in
  shows h 1%positive true 1 0 (py "~~").
Proof.
  intros h.
  assert (is_field h 1%positive 2 1 [2%positive; 3%positive]) as Hf
      by reflexivity.
  assert (Forall2 (is_layer h) [2%positive; 3%positive]
            [[mkMark 1 0 (1 # 2) (py "ask"); mkMark 1 0 (3 # 4) (py "care")];
             [mkMark 1 0 (3 # 4) (py "doubt")]]) as Hls
      by (repeat constructor).
  destruct (render_compositing h 1%positive 2 1 _ _ true 1 0 Hf Hls
              ltac:(lia) ltac:(lia)) as [Hshow _].
  apply (Hshow (mkMark 1 0 (3 # 4) (py "doubt"))).
  - exists [mkMark 1 0 (1 # 2) (py "ask"); mkMark 1 0 (3 # 4) (py "care")], [].
    split; [reflexivity|]. split.
    + intros m Hin _.
      apply elem_of_cons in Hin as [->|Hin]; [unfold Qle; simpl; lia|].
      apply elem_of_cons in Hin as [->|Hin]; [unfold Qle; simpl; lia|].
      inversion Hin.
    + intros m Hin. inversion Hin.
  - reflexivity.
  - unfold Qle. simpl. lia.
Defined.

(** ** A field that shows nothing *)

Lemma lstrip_spaces (n : nat) : lstrip (replicate n 32) = [].
Proof. induction n as [|n IH]; [reflexivity|exact IH]. Qed.

Lemma rstrip_spaces (n : nat) : rstrip (replicate n 32) = [].
Proof. unfold rstrip. now rewrite reverse_replicate, lstrip_spaces. Qed.

Lemma blank_row_text {A} (l : list A) :
  mjoin (map snd (map (fun _ => Field.blank) l)) = replicate (length l) 32.
Proof. induction l as [|a l IH]; [reflexivity|]. simpl. now rewrite IH. Qed.

Lemma join_empty_lines {A} (l : list A) :
  join [10] (map (fun _ => []) l) = replicate (length l - 1) 10.
Proof.
  induction l as [|a [|b l] IH]; [reflexivity..|].
  change (join [10] (map (fun _ : A => []) (a :: b :: l)))
    with (10 :: join [10] (map (fun _ : A => []) (b :: l))).
  rewrite IH. simpl. now rewrite Nat.sub_0_r.
Qed.

Lemma blank_grid_text (w ht : Z) :
  Field.render_text (Field.blank_grid w ht) false
  = replicate (Z.to_nat ht - 1) 10.
Proof.
  unfold Field.render_text, Field.blank_grid.
  rewrite map_map.
  rewrite (map_ext _ (fun _ => []))
    by (intros _; rewrite blank_row_text; apply rstrip_spaces).
  now rewrite join_empty_lines, length_range.
Qed.

Lemma render_text_legend (g : grid) (legend : bool) :
  Field.render_text g legend
  = Field.render_text g false ++ (if legend then Field.legend_line else []).
Proof. destruct legend; [reflexivity|]. now rewrite app_nil_r. Qed.

(** X8.  A field on which no in-bounds mark has a tone of 0 or more (a new
    field, a field of empty layers, marks that all fall outside, a width
    or height that is not positive) renders as [height - 1] newlines, every
    row stripped to the empty string, followed by the legend line when the
    legend is asked for. *)
Theorem render_blank h self w ht ls mss (legend : bool) :
  is_field h self w ht ls ->
  Forall2 (is_layer h) ls mss ->
  (forall m : Mark, m ∈ concat mss -> in_bounds w ht m -> (tone m < 0)%Q) ->
  Field.render self legend h
  = Some (replicate (Z.to_nat ht - 1) 10
          ++ (if legend then Field.legend_line else []), h).
Proof.
  intros Hf Hls Hneg.
  destruct (paint_all_blank_cells w ht (concat mss)) as (g & Hg & Hs & Hc).
  assert (g = Field.blank_grid w ht) as ->.
  { apply (grid_ext w ht); [exact Hs|apply blank_grid_shape|].
    intros cx cy Hcx Hcy. rewrite (Hc cx cy Hcx Hcy), cell_at_blank by assumption.
    f_equal. apply cell_fold_keep. intros m Hin Hk. apply Hneg; [exact Hin|].
    injection Hk as <- <-. split; assumption. }
  destruct (render_run h self w ht ls Hf mss _ legend Hls Hg) as [_ Ht].
  rewrite Ht, render_text_legend, blank_grid_text. reflexivity.
Qed.

(** A 4 x 3 field with one mark outside and one of negative tone. *)
Lemma render_blank_witness :
  let h : heap :=
    {[ 1%positive := FieldObj 4 3 [2%positive];
       2%positive := LayerObj [mkMark 4 0 (1 # 2) (py "ask");
                               mkMark 1 1 (-1 # 2) (py "care")] ]} in
  Field.render 1%positive false h = Some ([10; 10] ++ [], h).
Proof.
  intros h.
  apply (render_blank h 1%positive 4 3 [2%positive]
           [[mkMark 4 0 (1 # 2) (py "ask"); mkMark 1 1 (-1 # 2) (py "care")]]
           false).
  - reflexivity.
  - repeat constructor.
  - intros m Hin Hb.
    apply elem_of_cons in Hin as [->|Hin];
      [unfold in_bounds in Hb; simpl in Hb; lia|].
    apply elem_of_cons in Hin as [->|Hin]; [unfold Qlt; simpl; lia|].
    inversion Hin.
Defined.

(** ** Braiding before rendering *)

Lemma last_highest_of_distinct (l : list Mark) (v : Mark) :
  NoDup (map coord l) -> v ∈ l -> last_highest l v.
Proof.
  intros Hnd Hin. apply list_elem_of_split in Hin as (pre & post & ->).
  rewrite map_app in Hnd. simpl in Hnd.
  apply NoDup_app in Hnd as (_ & Hdisj & Hnd').
  apply NoDup_cons in Hnd' as [Hpost _].
  exists pre, post. split; [reflexivity|]. split.
  - intros m Hm Hc. exfalso.
    apply (Hdisj (coord m)).
    + apply (list_elem_of_fmap_2 coord) in Hm. exact Hm.
    + rewrite Hc. apply list_elem_of_here.
  - intros m Hm Hc. exfalso. apply Hpost. rewrite <- Hc.
    apply (list_elem_of_fmap_2 coord) in Hm. exact Hm.
Qed.

(** Every cell comes out of the braided marks as it comes out of the
    marks. *)
Lemma cell_fold_braided (k : Z * Z) (ms : list Mark) :
  cell_fold k (braided ms) Field.blank = cell_fold k ms Field.blank.
Proof.
  destruct (decide (k ∈ map coord ms)) as [Hocc|Hfree].
  - apply list_elem_of_fmap in Hocc as (m & -> & Hm).
    destruct (braided_occupied ms m Hm) as (v & Hv & Hvc).
    pose proof (braided_last_highest ms v Hv) as Hlh.
    pose proof (last_highest_of_distinct _ v (braided_NoDup ms) Hv) as Hlh'.
    rewrite <- Hvc.
    destruct (Qlt_le_dec (tone v) 0) as [Hneg|Hpos].
    + rewrite !cell_fold_keep; [reflexivity| |].
      * intros m' Hm' Hc.
        pose proof (last_highest_bound ms v m' Hlh Hm' Hc). simpl. lra.
      * intros m' Hm' Hc.
        apply braided_last_highest, last_highest_elem in Hm'.
        pose proof (last_highest_bound ms v m' Hlh Hm' Hc). simpl. lra.
    + now rewrite (cell_fold_last_highest _ _ Hlh Hpos),
        (cell_fold_last_highest _ _ Hlh' Hpos).
  - rewrite !cell_fold_keep; [reflexivity| |].
    + intros m Hm Hc. exfalso. apply Hfree. rewrite <- Hc.
      apply (list_elem_of_fmap_2 coord) in Hm. exact Hm.
    + intros m Hm Hc. exfalso. apply Hfree. rewrite <- Hc.
      apply braided_last_highest, last_highest_elem in Hm.
      apply (list_elem_of_fmap_2 coord) in Hm. exact Hm.
Qed.

Lemma paint_all_braided (w ht : Z) (ms : list Mark) :
  paint_all w ht (braided ms) (Field.blank_grid w ht)
  = paint_all w ht ms (Field.blank_grid w ht).
Proof.
  destruct (paint_all_blank_cells w ht ms) as (g & Hg & Hs & Hc).
  destruct (paint_all_blank_cells w ht (braided ms)) as (g' & Hg' & Hs' & Hc').
  rewrite Hg, Hg'. f_equal. apply (grid_ext w ht); [assumption..|].
  intros cx cy Hcx Hcy.
  now rewrite (Hc cx cy Hcx Hcy), (Hc' cx cy Hcx Hcy), cell_fold_braided.
Qed.

(** X9.  Braiding the layers of a field and rendering a new field of the
    same size that holds the braided layer alone gives the text that the
    field itself renders: [braid] keeps per cell the very mark that
    [render] would show. *)
Theorem braid_then_render h self w ht ls mss (legend : bool) :
  is_field h self w ht ls ->
  Forall2 (is_layer h) ls mss ->
  exists (s : str) (h' : heap),
    Field.render self legend h = Some (s, h)
    /\ (merged ← braid ls;
        f ← Field.new w ht;
        _ ← Field.deposit f merged;
        Field.render f legend) h = Some (s, h').
Proof.
  intros Hf Hls.
  destruct (paint_all_total w ht (concat mss) (Field.blank_grid w ht)
              (blank_grid_shape w ht)) as (g & Hg & _).
  destruct (render_run h self w ht ls Hf mss g legend Hls Hg) as [_ Ht].
  destruct (braid_run h ls mss Hls) as [Hb Hfresh].
  set (merged := fresh (dom h)) in *.
  set (out := braided (concat mss)) in *.
  set (h1 := <[merged := LayerObj out]> h) in *.
  destruct (alloc_run (FieldObj w ht []) h1) as [Hnew Hfresh1].
  set (f := fresh (dom h1)) in *.
  set (h2 := <[f := FieldObj w ht []]> h1) in *.
  assert (merged <> f) as Hne.
  { intros E. unfold h1 in Hfresh1. rewrite <- E, lookup_insert_eq in Hfresh1.
    discriminate. }
  pose proof (Field_deposit_run h2 f w ht [] merged
                ltac:(unfold is_field, h2; apply lookup_insert_eq)) as Hdep.
  set (h3 := <[f := FieldObj w ht ([] ++ [merged])]> h2) in *.
  assert (is_field h3 f w ht [merged]) as Hf3
      by (unfold is_field, h3; apply lookup_insert_eq).
  assert (Forall2 (is_layer h3) [merged] [out]) as Hls3.
  { repeat constructor. unfold is_layer, h3, h2, h1.
    rewrite !lookup_insert_ne by congruence. apply lookup_insert_eq. }
  assert (paint_all w ht (concat [out]) (Field.blank_grid w ht) = Some g) as Hg3.
  { simpl. rewrite app_nil_r. unfold out. now rewrite paint_all_braided. }
  destruct (render_run h3 f w ht [merged] Hf3 [out] g legend Hls3 Hg3)
    as [_ Ht3].
  exists (Field.render_text g legend), h3. split; [exact Ht|].
  rewrite (bind_run _ _ _ _ _ Hb).
  unfold Field.new. rewrite (bind_run _ _ _ _ _ Hnew).
  rewrite (bind_run _ _ _ _ _ Hdep). exact Ht3.
Qed.

Lemma braid_then_render_witness :
  let h : heap :=
    {[ 1%positive := FieldObj 2 1 [2%positive; 3%positive];
       2%positive := LayerObj [mkMark 1 0 (1 # 2) (py "ask");
                               mkMark 1 0 (3 # 4) (py "care")];
       3%positive := LayerObj [mkMark 1 0 (3 # 4) (py "doubt");
                               mkMark 0 0 (-1) (py "turn")] ]} in
  exists (s : str) (h' : heap),
    Field.render 1%positive true h = Some (s, h)
    /\ (merged ← braid [2%positive; 3%positive];
        f ← Field.new 2 1;
        _ ← Field.deposit f merged;
        Field.render f true) h = Some (s, h').
Proof.
  intros h.
  apply (braid_then_render h 1%positive 2 1 [2%positive; 3%positive]
           [[mkMark 1 0 (1 # 2) (py "ask"); mkMark 1 0 (3 # 4) (py "care")];
            [mkMark 1 0 (3 # 4) (py "doubt"); mkMark 0 0 (-1) (py "turn")]]).
  - reflexivity.
  - repeat constructor.
Defined.

(** ** The geometry of a path *)

Lemma inscribe_run h field w ht ls (origin : Z * Z) (steps : Z) (tag : str)
    (stride : Z) (tone : Q) :
  is_field h field w ht ls ->
  inscribe field origin steps tag stride tone h
  = Some (fresh (dom h),
          <[field := FieldObj w ht (ls ++ [fresh (dom h)])]>
            (<[fresh (dom h) :=
                 LayerObj (map (path_mark tag stride tone origin)
                             (seq 0 (Z.to_nat steps)))]> h))
  /\ h !! fresh (dom h) = None
  /\ fresh (dom h) <> field.
Proof.
  intros Hf. destruct (alloc_run (LayerObj []) h) as [Hnew Hfresh].
  set (layer := fresh (dom h)) in *.
  assert (layer <> field) as Hne.
  { intros E. unfold is_field in Hf. rewrite E in Hfresh. congruence. }
  split; [|split; [exact Hfresh|exact Hne]].
  unfold inscribe. destruct origin as [ox oy].
  unfold Layer.new. rewrite (bind_run _ _ _ _ _ Hnew).
  pose proof (inscribe_loop tag stride tone (ox, oy) layer
                (Z.to_nat steps) 0 [] h) as Hloop.
  simpl path in Hloop. unfold range.
  rewrite (bind_run _ _ _ _ _ Hloop). simpl app.
  rewrite (bind_run _ _ _ _ tt
             (Field_deposit_run _ field w ht ls layer
                ltac:(unfold is_field; rewrite lookup_insert_ne by exact Hne;
                      exact Hf))).
  reflexivity.
Qed.

(** X10.  With [steps <= 0] the loop of [inscribe] does not run: a new
    layer without marks is deposited and returned, and nothing raises. *)
Theorem inscribe_no_steps h field w ht ls (origin : Z * Z) (steps : Z)
    (tag : str) (stride : Z) (tone : Q) :
  is_field h field w ht ls ->
  steps <= 0 ->
  exists layer : loc,
    inscribe field origin steps tag stride tone h
    = Some (layer,
            <[field := FieldObj w ht (ls ++ [layer])]>
              (<[layer := LayerObj []]> h))
    /\ h !! layer = None.
Proof.
  intros Hf Hsteps.
  destruct (inscribe_run h field w ht ls origin steps tag stride tone Hf)
    as (Hrun & Hfresh & _).
  exists (fresh (dom h)). split; [|exact Hfresh].
  rewrite Hrun. replace (Z.to_nat steps) with 0%nat by lia. reflexivity.
Qed.

Lemma inscribe_no_steps_witness :
  let h : heap := {[ 1%positive := FieldObj 84 20 [] ]} in
  exists layer : loc,
    inscribe 1%positive (2, 3) (-5) (py "turn") 1 (1 # 2) h
    = Some (layer,
            <[1%positive := FieldObj 84 20 ([] ++ [layer])]>
              (<[layer := LayerObj []]> h))
    /\ h !! layer = None.
Proof.
  intros h.
  apply (inscribe_no_steps h 1%positive 84 20 [] (2, 3) (-5) (py "turn") 1 (1 # 2)).
  - reflexivity.
  - lia.
Defined.

(** A move of [perturb] is at most one cell each way. *)
Lemma perturb_near (px py seed : Z) :
  -1 <= fst (perturb px py seed) - px <= 1
  /\ -1 <= snd (perturb px py seed) - py <= 1.
Proof.
  unfold perturb.
  set (r := Z.land (seed * 6364136223846793005 + 1) 4294967295).
  pose proof (Z.mod_pos_bound (Z.shiftr r 8) 3 ltac:(lia)).
  pose proof (Z.mod_pos_bound (Z.shiftr r 16) 3 ltac:(lia)).
  cbn [fst snd]. lia.
Qed.

Section Path.

Variables (tag : str) (stride : Z) (origin : Z * Z).

Ltac tag_clash :=
  match goal with
  | Ht : ?t = py _, e : ?t = py _ |- _ =>
      exfalso; rewrite Ht in e; vm_compute in e; discriminate e
  end.

Ltac step_path i IH :=
  cbn [path]; unfold advance;
  destruct (path tag stride origin i) as [qx qy]; cbn [fst snd] in IH |- *;
  repeat (destruct (decide _) as [?|?]; try congruence; try tag_clash);
  cbn [fst snd].

(** Every rule but that of 'turn' advances the column by [stride]. *)
Lemma path_column (i : nat) :
  tag <> py "turn" ->
  fst (path tag stride origin i) = fst origin + Z.of_nat i * stride.
Proof.
  intros Hturn. induction i as [|i IH]; [cbn [path]; lia|].
  step_path i IH; lia.
Qed.

(** The rules of 'care' and 'resolve' and the rule of any other tag than
    the seven of the palette keep the row. *)
Lemma path_row_level (i : nat) :
  tag <> py "ask" -> tag <> py "answer" -> tag <> py "turn" ->
  tag <> py "doubt" ->
  snd (path tag stride origin i) = snd origin.
Proof.
  intros H1 H2 H3 H4. induction i as [|i IH]; [reflexivity|].
  step_path i IH; try lia.
  destruct (negb (Z.of_nat i =? 0)); lia.
Qed.

(** 'ask' climbs one row at every other step, starting with the first. *)
Lemma path_row_ask (i : nat) :
  tag = py "ask" ->
  snd (path tag stride origin i) = snd origin - (Z.of_nat i + 1) / 2.
Proof.
  intros Htag. induction i as [|i IH];
    [cbn [path]; change (Z.of_nat 0) with 0; Z.div_mod_to_equations; lia|].
  step_path i IH. rewrite IH. rewrite Nat2Z.inj_succ.
  destruct (Z.of_nat i mod 2 =? 0) eqn:E;
    [apply Z.eqb_eq in E|apply Z.eqb_neq in E];
    cbn [Z.b2z]; Z.div_mod_to_equations; lia.
Qed.

(** 'answer' descends one row at every third step, starting with the
    first. *)
Lemma path_row_answer (i : nat) :
  tag = py "answer" ->
  snd (path tag stride origin i) = snd origin + (Z.of_nat i + 2) / 3.
Proof.
  intros Htag. induction i as [|i IH];
    [cbn [path]; change (Z.of_nat 0) with 0; Z.div_mod_to_equations; lia|].
  step_path i IH. rewrite IH. rewrite Nat2Z.inj_succ.
  destruct (Z.of_nat i mod 3 =? 0) eqn:E;
    [apply Z.eqb_eq in E|apply Z.eqb_neq in E];
    cbn [Z.b2z]; Z.div_mod_to_equations; lia.
Qed.

(** 'turn' advances one column at every other step, whatever the stride,
    and alternates between its row and the row above. *)
Lemma path_turn (i : nat) :
  tag = py "turn" ->
  fst (path tag stride origin i) = fst origin + (Z.of_nat i + 1) / 2
  /\ snd (path tag stride origin i) = snd origin - Z.of_nat i mod 2.
Proof.
  intros Htag. induction i as [|i IH];
    [cbn [path]; change (Z.of_nat 0) with 0; Z.div_mod_to_equations; lia|].
  step_path i IH. destruct IH as [IHx IHy]. rewrite IHx, IHy.
  rewrite Nat2Z.inj_succ.
  destruct (Z.of_nat i mod 2 =? 0) eqn:E;
    [apply Z.eqb_eq in E|apply Z.eqb_neq in E];
    cbn [negb]; Z.div_mod_to_equations; lia.
Qed.

(** 'doubt' goes two rows up and two rows down again, with period 4. *)
Lemma path_row_doubt (i : nat) :
  tag = py "doubt" ->
  snd (path tag stride origin i)
  = snd origin - Z.min (Z.of_nat i mod 4) (4 - Z.of_nat i mod 4).
Proof.
  intros Htag. induction i as [|i IH];
    [cbn [path]; change (Z.of_nat 0) with 0; Z.div_mod_to_equations; lia|].
  step_path i IH. rewrite IH. rewrite Nat2Z.inj_succ.
  destruct ((Z.of_nat i / 2) mod 2 =? 0) eqn:E;
    [apply Z.eqb_eq in E|apply Z.eqb_neq in E];
    cbn [negb]; Z.div_mod_to_equations; lia.
Qed.

End Path.

Lemma path_marks_lookup (tag : str) (stride : Z) (tone : Q) (origin : Z * Z)
    (n i : nat) (m : Mark) :
  map (path_mark tag stride tone origin) (seq 0 n) !! i = Some m ->
  m = path_mark tag stride tone origin i.
Proof.
  change (map (path_mark tag stride tone origin) (seq 0 n))
    with (path_mark tag stride tone origin <$> seq 0 n).
  rewrite list_lookup_fmap. intros H.
  destruct (seq 0 n !! i) as [j|] eqn:E; [|discriminate].
  apply lookup_seq in E as [-> _]. simpl in H. congruence.
Qed.

Lemma path_mark_near (tag : str) (stride : Z) (tone : Q) (origin : Z * Z)
    (i : nat) :
  -1 <= x (path_mark tag stride tone origin i)
        - fst (path tag stride origin i) <= 1
  /\ -1 <= y (path_mark tag stride tone origin i)
           - snd (path tag stride origin i) <= 1.
Proof. unfold path_mark. cbn [x y]. apply perturb_near. Qed.

(** X11.  The columns of a path: for every tag but 'turn', the [i]-th mark
    of [inscribe] lies within one column of [ox + i * stride]. *)
Theorem inscribe_columns h field w ht ls (origin : Z * Z) (steps : Z)
    (tag : str) (stride : Z) (tone : Q) :
  is_field h field w ht ls ->
  tag <> py "turn" ->
  exists (layer : loc) (marks : list Mark) (h' : heap),
    inscribe field origin steps tag stride tone h = Some (layer, h')
    /\ is_layer h' layer marks
    /\ forall (i : nat) (m : Mark),
         marks !! i = Some m ->
         -1 <= x m - (fst origin + Z.of_nat i * stride) <= 1.
Proof.
  intros Hf Hturn.
  destruct (inscribe_run h field w ht ls origin steps tag stride tone Hf)
    as (Hrun & _ & Hne).
  eexists _, _, _. split; [exact Hrun|]. split.
  - unfold is_layer. rewrite lookup_insert_ne by congruence.
    apply lookup_insert_eq.
  - intros i m Hm. apply path_marks_lookup in Hm as ->.
    pose proof (path_mark_near tag stride tone origin i) as [Hx _].
    rewrite (path_column tag stride origin i Hturn) in Hx. exact Hx.
Qed.

Lemma inscribe_columns_witness :
  let h : heap := {[ 1%positive := FieldObj 84 20 [] ]} in
  exists (layer : loc) (marks : list Mark) (h' : heap),
    inscribe 1%positive (16, 9) 6 (py "resolve") 2 (9 # 10) h = Some (layer, h')
    /\ is_layer h' layer marks
    /\ forall (i : nat) (m : Mark),
         marks !! i = Some m ->
         -1 <= x m - (fst (16, 9) + Z.of_nat i * 2) <= 1.
Proof.
  intros h.
  apply (inscribe_columns h 1%positive 84 20 [] (16, 9) 6 (py "resolve") 2 (9 # 10)).
  - reflexivity.
  - intros E. vm_compute in E. discriminate E.
Defined.

(** X12.  The rows of a path, by tag.  The [i]-th mark of [inscribe] lies
    within one row of: [oy - (i + 1) // 2] for 'ask'; [oy + (i + 2) // 3]
    for 'answer'; [oy - i % 2] for 'turn', whose column is within one of
    [ox + (i + 1) // 2] whatever the stride; [oy] less the distance of [i]
    to the nearest multiple of 4 for 'doubt'; [oy] for every other tag. *)
Theorem inscribe_rows h field w ht ls (origin : Z * Z) (steps : Z)
    (tag : str) (stride : Z) (tone : Q) :
  is_field h field w ht ls ->
  exists (layer : loc) (marks : list Mark) (h' : heap),
    inscribe field origin steps tag stride tone h = Some (layer, h')
    /\ is_layer h' layer marks
    /\ forall (i : nat) (m : Mark),
         marks !! i = Some m ->
         let n := Z.of_nat i in
         let d := y m - snd origin in
         if decide (tag = py "ask") then -1 <= d + (n + 1) / 2 <= 1
         else if decide (tag = py "answer") then -1 <= d - (n + 2) / 3 <= 1
         else if decide (tag = py "turn") then
           -1 <= d + n mod 2 <= 1
           /\ -1 <= x m - (fst origin + (n + 1) / 2) <= 1
         else if decide (tag = py "doubt") then
           -1 <= d + Z.min (n mod 4) (4 - n mod 4) <= 1
         else -1 <= d <= 1.
Proof.
  intros Hf.
  destruct (inscribe_run h field w ht ls origin steps tag stride tone Hf)
    as (Hrun & _ & Hne).
  eexists _, _, _. split; [exact Hrun|]. split.
  - unfold is_layer. rewrite lookup_insert_ne by congruence.
    apply lookup_insert_eq.
  - intros i m Hm. apply path_marks_lookup in Hm as ->.
    pose proof (path_mark_near tag stride tone origin i) as [Hx Hy].
    cbv zeta.
    destruct (decide (tag = py "ask")) as [E1|N1].
    { rewrite (path_row_ask tag stride origin i E1) in Hy. lia. }
    destruct (decide (tag = py "answer")) as [E2|N2].
    { rewrite (path_row_answer tag stride origin i E2) in Hy. lia. }
    destruct (decide (tag = py "turn")) as [E3|N3].
    { destruct (path_turn tag stride origin i E3) as [Px Py].
      rewrite Px in Hx. rewrite Py in Hy. lia. }
    destruct (decide (tag = py "doubt")) as [E4|N4].
    { rewrite (path_row_doubt tag stride origin i E4) in Hy. lia. }
    rewrite (path_row_level tag stride origin i N1 N2 N3 N4) in Hy. lia.
Qed.

Lemma inscribe_rows_witness :
  let h : heap := {[ 1%positive := FieldObj 84 20 [] ]} in
  exists (layer : loc) (marks : list Mark) (h' : heap),
    inscribe 1%positive (22, 8) 16 (py "doubt") 1 (1 # 2) h = Some (layer, h')
    /\ is_layer h' layer marks
    /\ forall (i : nat) (m : Mark),
         marks !! i = Some m ->
         -1 <= y m - 8 + Z.min (Z.of_nat i mod 4) (4 - Z.of_nat i mod 4) <= 1.
Proof.
  intros h.
  apply (inscribe_rows h 1%positive 84 20 [] (22, 8) 16 (py "doubt") 1 (1 # 2)).
  reflexivity.
Defined.

(** ** More on braiding *)

Lemma bag_get_absent (b : bag) (k : Z * Z) :
  k ∉ map fst b -> bag_get b k = None.
Proof.
  intros Hk. destruct (bag_get b k) as [v|] eqn:E; [|reflexivity].
  exfalso. apply Hk. apply bag_get_elem in E.
  apply (list_elem_of_fmap_2 fst) in E. exact E.
Qed.

(** The keys of the dict after one round of the inner loop. *)
Lemma braid_step_keys (b : bag) (m : Mark) :
  map fst (braid_step b m)
  = if decide (coord m ∈ map fst b) then map fst b
    else map fst b ++ [coord m].
Proof.
  unfold braid_step. fold (coord m).
  destruct (decide (coord m ∈ map fst b)) as [Hin|Hout].
  - destruct (bag_get b (coord m)) as [old|];
      [destruct (Qle_bool _ _)|]; try reflexivity;
      now apply bag_set_keys_present.
  - rewrite (bag_get_absent b _ Hout), bag_set_keys_absent by exact Hout.
    now rewrite map_app.
Qed.

Lemma first_seen_ext (s1 s2 cs : list (Z * Z)) :
  (forall c, c ∈ s1 <-> c ∈ s2) -> first_seen s1 cs = first_seen s2 cs.
Proof.
  revert s1 s2. induction cs as [|c cs IH]; intros s1 s2 H; [reflexivity|].
  simpl. destruct (decide (c ∈ s1)) as [H1|H1];
    destruct (decide (c ∈ s2)) as [H2|H2];
    try (exfalso; apply H in H1 || apply H in H2; contradiction).
  - now apply IH.
  - f_equal. apply IH. intros c'. rewrite !elem_of_cons, H. reflexivity.
Qed.

Lemma braid_fold_keys (ms : list Mark) (b : bag) :
  map fst (fold_left braid_step ms b)
  = map fst b ++ first_seen (map fst b) (map coord ms).
Proof.
  revert b. induction ms as [|m ms IH]; intros b; simpl.
  - now rewrite app_nil_r.
  - rewrite IH, braid_step_keys.
    destruct (decide (coord m ∈ map fst b)) as [Hin|Hout]; [reflexivity|].
    rewrite <- app_assoc. f_equal. simpl. f_equal.
    apply first_seen_ext. intros c.
    rewrite elem_of_app, !elem_of_cons, elem_of_nil. tauto.
Qed.

Lemma first_seen_length (seen cs : list (Z * Z)) :
  (length (first_seen seen cs) <= length cs)%nat.
Proof.
  revert seen. induction cs as [|c cs IH]; intros seen; simpl; [lia|].
  destruct (decide (c ∈ seen)).
  - specialize (IH seen). lia.
  - specialize (IH (c :: seen)). simpl. lia.
Qed.

(** X13.  The order of the braided layer is the order of the dict: the
    cells come in the order in which the scan first meets them, each once,
    whichever mark won the cell. *)
Theorem braid_order (h : heap) (layers : list loc) (mss : list (list Mark)) :
  Forall2 (is_layer h) layers mss ->
  exists (merged : loc) (out : list Mark),
    braid layers h = Some (merged, <[merged := LayerObj out]> h)
    /\ map coord out = first_seen [] (map coord (concat mss)).
Proof.
  intros Hls. destruct (braid_run h layers mss Hls) as [Hrun _].
  eexists _, _. split; [exact Hrun|].
  unfold braided. rewrite (bag_coords (concat mss)) by apply braided_inv.
  apply (braid_fold_keys (concat mss) []).
Qed.

Lemma braid_order_witness :
  let h : heap :=
    {[ 2%positive := LayerObj [mkMark 5 5 (1 # 4) (py "ask");
                               mkMark 0 0 (1 # 4) (py "care")];
       3%positive := LayerObj [mkMark 0 0 (1 # 2) (py "turn");
                               mkMark 5 5 (1 # 8) (py "doubt");
                               mkMark 2 2 1 (py "gap")] ]} in
  exists (merged : loc) (out : list Mark),
    braid [2%positive; 3%positive] h
    = Some (merged, <[merged := LayerObj out]> h)
    /\ map coord out
       = first_seen [] (map coord (concat
           [[mkMark 5 5 (1 # 4) (py "ask"); mkMark 0 0 (1 # 4) (py "care")];
            [mkMark 0 0 (1 # 2) (py "turn"); mkMark 5 5 (1 # 8) (py "doubt");
             mkMark 2 2 1 (py "gap")]])).
Proof.
  intros h.
  apply (braid_order h [2%positive; 3%positive]).
  repeat constructor.
Defined.

(** The marks of pairwise distinct coordinates pass through the dict as
    they are. *)
Lemma braid_fold_distinct (l : list Mark) (b : bag) :
  NoDup (map fst b ++ map coord l) ->
  fold_left braid_step l b = b ++ map (fun m => (coord m, m)) l.
Proof.
  revert b. induction l as [|m l IH]; intros b Hnd; simpl.
  - now rewrite app_nil_r.
  - assert (coord m ∉ map fst b) as Hout.
    { apply NoDup_app in Hnd as (_ & Hdisj & _). intros Hin.
      apply (Hdisj _ Hin). apply list_elem_of_here. }
    assert (braid_step b m = b ++ [(coord m, m)]) as ->.
    { unfold braid_step. fold (coord m).
      rewrite (bag_get_absent b _ Hout). now apply bag_set_keys_absent. }
    rewrite IH.
    + now rewrite <- app_assoc.
    + rewrite map_app. simpl. rewrite <- app_assoc. exact Hnd.
Qed.

Lemma braided_distinct (l : list Mark) :
  NoDup (map coord l) -> braided l = l.
Proof.
  intros Hnd. unfold braided.
  rewrite (braid_fold_distinct l []) by exact Hnd.
  simpl. rewrite map_map. simpl. apply map_id.
Qed.

(** X14.  Braiding one layer whose marks have pairwise distinct
    coordinates copies it: the new layer holds the same marks in the same
    order. *)
Theorem braid_copies_distinct (h : heap) (l : loc) (ms : list Mark) :
  is_layer h l ms ->
  NoDup (map coord ms) ->
  exists merged : loc,
    braid [l] h = Some (merged, <[merged := LayerObj ms]> h)
    /\ merged <> l.
Proof.
  intros Hl Hnd.
  destruct (braid_run h [l] [ms] ltac:(repeat constructor; exact Hl))
    as [Hrun Hfresh].
  exists (fresh (dom h)). split.
  - rewrite Hrun. simpl. rewrite app_nil_r.
    now rewrite (braided_distinct ms Hnd).
  - intros E. rewrite E in Hfresh. unfold is_layer in Hl. congruence.
Qed.

Lemma braid_copies_distinct_witness :
  let h : heap :=
    {[ 2%positive := LayerObj [mkMark 5 5 (1 # 4) (py "ask");
                               mkMark 0 0 (1 # 4) (py "care")] ]} in
  exists merged : loc,
    braid [2%positive] h
    = Some (merged, <[merged := LayerObj [mkMark 5 5 (1 # 4) (py "ask");
                                          mkMark 0 0 (1 # 4) (py "care")]]> h)
    /\ merged <> 2%positive.
Proof.
  intros h.
  apply (braid_copies_distinct h 2%positive).
  - reflexivity.
  - simpl. repeat (apply NoDup_cons; split;
      [intros H; repeat (apply elem_of_cons in H as [H|H]; [discriminate H|]);
       inversion H|]).
    apply NoDup_nil. exact I.
Defined.

(** X15.  [braid] is idempotent: braiding the layer that [braid] returned
    gives a layer with the same marks in the same order. *)
Theorem braid_idempotent (h : heap) (layers : list loc)
    (mss : list (list Mark)) :
  Forall2 (is_layer h) layers mss ->
  exists (m1 m2 : loc) (out : list Mark) (h' : heap),
    (m1 ← braid layers; m2 ← braid [m1]; mret (m1, m2)) h
    = Some ((m1, m2), h')
    /\ m1 <> m2
    /\ is_layer h' m1 out
    /\ is_layer h' m2 out.
Proof.
  intros Hls. destruct (braid_run h layers mss Hls) as [Hrun Hfresh].
  set (m1 := fresh (dom h)) in *.
  set (out := braided (concat mss)) in *.
  set (h1 := <[m1 := LayerObj out]> h) in *.
  assert (is_layer h1 m1 out) as Hm1 by (unfold is_layer, h1; apply lookup_insert_eq).
  destruct (braid_run h1 [m1] [out] ltac:(repeat constructor; exact Hm1))
    as [Hrun2 Hfresh2].
  set (m2 := fresh (dom h1)) in *.
  assert (m1 <> m2) as Hne.
  { intros E. rewrite <- E in Hfresh2. unfold is_layer in Hm1. congruence. }
  exists m1, m2, out, (<[m2 := LayerObj out]> h1).
  split; [|split; [exact Hne|split]].
  - rewrite (bind_run _ _ _ _ _ Hrun), (bind_run _ _ _ _ _ Hrun2).
    simpl. rewrite app_nil_r.
    rewrite (braided_distinct out (braided_NoDup (concat mss))).
    reflexivity.
  - unfold is_layer. rewrite lookup_insert_ne by congruence. exact Hm1.
  - unfold is_layer. apply lookup_insert_eq.
Qed.

Lemma braid_idempotent_witness :
  let h : heap :=
    {[ 2%positive := LayerObj [mkMark 5 5 (1 # 4) (py "ask");
                               mkMark 0 0 (1 # 4) (py "care")];
       3%positive := LayerObj [mkMark 0 0 (1 # 2) (py "turn");
                               mkMark 5 5 (1 # 8) (py "doubt")] ]} in
  exists (m1 m2 : loc) (out : list Mark) (h' : heap),
    (m1 ← braid [2%positive; 3%positive]; m2 ← braid [m1]; mret (m1, m2)) h
    = Some ((m1, m2), h')
    /\ m1 <> m2
    /\ is_layer h' m1 out
    /\ is_layer h' m2 out.
Proof.
  intros h.
  apply (braid_idempotent h [2%positive; 3%positive]
           [[mkMark 5 5 (1 # 4) (py "ask"); mkMark 0 0 (1 # 4) (py "care")];
            [mkMark 0 0 (1 # 2) (py "turn"); mkMark 5 5 (1 # 8) (py "doubt")]]).
  repeat constructor.
Defined.

(** X16.  [braid] returns no more marks than the supplied layers hold, and
    a layer without marks exactly when they hold none, as when no layer is
    supplied. *)
Theorem braid_size (h : heap) (layers : list loc) (mss : list (list Mark)) :
  Forall2 (is_layer h) layers mss ->
  exists (merged : loc) (out : list Mark),
    braid layers h = Some (merged, <[merged := LayerObj out]> h)
    /\ (length out <= length (concat mss))%nat
    /\ (out = [] <-> concat mss = []).
Proof.
  intros Hls. destruct (braid_run h layers mss Hls) as [Hrun _].
  eexists _, _. split; [exact Hrun|]. split.
  - rewrite <- (length_map coord (braided _)).
    unfold braided. rewrite (bag_coords (concat mss)) by apply braided_inv.
    rewrite (braid_fold_keys (concat mss) []). simpl.
    rewrite <- (length_map coord (concat mss)). apply first_seen_length.
  - split.
    + intros E. destruct (concat mss) as [|m ms] eqn:Ems; [reflexivity|].
      destruct (braided_occupied (m :: ms) m (list_elem_of_here _ _))
        as (v & Hv & _).
      rewrite E in Hv. inversion Hv.
    + intros ->. reflexivity.
Qed.

Lemma braid_size_witness :
  let h : heap := {[ 2%positive := LayerObj [] ]} in
  exists (merged : loc) (out : list Mark),
    braid [2%positive; 2%positive] h
    = Some (merged, <[merged := LayerObj out]> h)
    /\ (length out <= length (concat [[]; []] : list Mark))%nat
    /\ (out = [] <-> concat [[]; []] = ([] : list Mark)).
Proof.
  intros h.
  apply (braid_size h [2%positive; 2%positive] [[]; []]).
  repeat constructor.
Defined.

(** ** The lines of a rendering *)

Lemma base_of_char (tag : str) :
  exists ch : Z, base_of tag = [ch] /\ ch <> 10.
Proof.
  unfold base_of. destruct (PALETTE !! tag) as [v|] eqn:E; simpl.
  - apply elem_of_list_to_map_2 in E.
    repeat (apply elem_of_cons in E as [E|E];
            [inversion E; subst; eexists;
             split; [reflexivity|vm_compute; discriminate]|]).
    inversion E.
  - eexists; split; [reflexivity|vm_compute; discriminate].
Qed.

Lemma symbol_cell_ok (tag : str) (t : Q) : cell_ok (t, symbol tag t).
Proof.
  unfold cell_ok. cbn [snd]. split.
  - unfold symbol. destruct (base_of_char tag) as (ch & -> & Hch).
    rewrite str_mul_single. intros Hin.
    apply elem_of_replicate in Hin as [E _]. congruence.
  - pose proof (symbol_length tag t). pose proof (level_range (clamp t)). lia.
Qed.

Lemma blank_cell_ok : cell_ok Field.blank.
Proof.
  split; [|simpl; lia]. intros H.
  apply list_elem_of_singleton in H. discriminate H.
Qed.

Lemma blank_grid_ok (w ht : Z) : Forall (Forall cell_ok) (Field.blank_grid w ht).
Proof.
  unfold Field.blank_grid. apply Forall_forall. intros row Hrow.
  apply list_elem_of_fmap in Hrow as (? & -> & _).
  apply Forall_forall. intros c Hc.
  apply list_elem_of_fmap in Hc as (? & -> & _). apply blank_cell_ok.
Qed.

Lemma put_ok (g : grid) (cx cy : Z) (c : cell) :
  Forall (Forall cell_ok) g -> cell_ok c ->
  Forall (Forall cell_ok) (put g cx cy c).
Proof.
  intros Hg Hc. unfold put.
  destruct (g !! Z.to_nat cy) as [row|] eqn:Hrow; [|exact Hg].
  apply Forall_insert; [exact Hg|].
  apply Forall_insert; [|exact Hc].
  rewrite Forall_forall in Hg. apply Hg.
  eapply list_elem_of_lookup_2; exact Hrow.
Qed.

Lemma paint_all_ok (w ht : Z) (ms : list Mark) (g : grid) :
  shape w ht g -> Forall (Forall cell_ok) g ->
  exists g',
    paint_all w ht ms g = Some g' /\ shape w ht g'
    /\ Forall (Forall cell_ok) g'.
Proof.
  revert g. induction ms as [|m ms IH]; intros g Hs Hok; [eauto|].
  simpl. destruct (decide (in_bounds w ht m)) as [Hin|Hout].
  - destruct (paint_in w ht g m Hs Hin) as (old & _ & ->). simpl.
    destruct (Qle_bool (fst old) (tone m)).
    + apply IH; [now apply put_shape|].
      apply put_ok; [exact Hok|apply symbol_cell_ok].
    + now apply IH.
  - rewrite (paint_out w ht g m Hout). simpl. now apply IH.
Qed.

Lemma lstrip_idem (s : str) : lstrip (lstrip s) = lstrip s.
Proof.
  induction s as [|c s IH]; [reflexivity|]. simpl.
  destruct (is_space c) eqn:E; [exact IH|]. simpl. now rewrite E.
Qed.

Lemma lstrip_sub (s : str) :
  (forall c, c ∈ lstrip s -> c ∈ s) /\ (length (lstrip s) <= length s)%nat.
Proof.
  induction s as [|c s [IH1 IH2]]; [split; [intros c H; exact H|simpl; lia]|].
  simpl. destruct (is_space c).
  - split; [|lia]. intros c' H. apply list_elem_of_further, IH1, H.
  - split; [intros c' H; exact H|simpl; lia].
Qed.

Lemma rstrip_idem (s : str) : rstrip (rstrip s) = rstrip s.
Proof. unfold rstrip. now rewrite reverse_involutive, lstrip_idem. Qed.

Lemma rstrip_sub (s : str) :
  (forall c, c ∈ rstrip s -> c ∈ s) /\ (length (rstrip s) <= length s)%nat.
Proof.
  unfold rstrip. destruct (lstrip_sub (reverse s)) as [H1 H2]. split.
  - intros c Hc. rewrite elem_of_reverse in Hc. apply H1 in Hc.
    now rewrite elem_of_reverse in Hc.
  - rewrite length_reverse in *. exact H2.
Qed.

Lemma row_text_ok (row : list cell) :
  Forall cell_ok row ->
  (10 ∉ mjoin (map snd row))
  /\ (length (mjoin (map snd row)) <= 3 * length row)%nat.
Proof.
  induction 1 as [|c row [Hc1 Hc2] _ [IH1 IH2]]; simpl.
  - split; [apply not_elem_of_nil|lia].
  - split.
    + intros H. apply elem_of_app in H as [H|H]; tauto.
    + rewrite length_app. lia.
Qed.

(** X17.  The text of [render] is made of exactly [height] lines joined by
    newlines, before the legend line if there is one; no line contains a
    newline or ends in whitespace, and a line has at most three characters
    per column of the field, so up to [3 * width]. *)
Theorem render_lines h self w ht ls mss (legend : bool) :
  is_field h self w ht ls ->
  Forall2 (is_layer h) ls mss ->
  exists lines : list str,
    Field.render self legend h
    = Some (join [10] lines ++ (if legend then Field.legend_line else []), h)
    /\ length lines = Z.to_nat ht
    /\ Forall (line_ok w) lines.
Proof.
  intros Hf Hls.
  destruct (paint_all_ok w ht (concat mss) (Field.blank_grid w ht)
              (blank_grid_shape w ht) (blank_grid_ok w ht))
    as (g & Hg & Hs & Hok).
  destruct (render_run h self w ht ls Hf mss g legend Hls Hg) as [_ Ht].
  exists (map (fun row => rstrip (mjoin (map snd row))) g).
  split; [|split].
  - rewrite Ht, render_text_legend. reflexivity.
  - rewrite length_map. apply Hs.
  - apply Forall_forall. intros line Hline.
    apply list_elem_of_fmap in Hline as (row & -> & Hrow).
    rewrite Forall_forall in Hok. specialize (Hok row Hrow).
    destruct (row_text_ok row Hok) as [Hnl Hlen].
    destruct (rstrip_sub (mjoin (map snd row))) as [Hsub Hle].
    destruct Hs as [_ Hrows]. rewrite Forall_forall in Hrows.
    specialize (Hrows row Hrow). simpl in Hrows.
    split; [apply rstrip_idem|split].
    + intros H. apply Hnl, Hsub, H.
    + lia.
Qed.

Lemma render_lines_witness :
  let h : heap :=
    {[ 1%positive := FieldObj 2 3 [2%positive];
       2%positive := LayerObj [mkMark 0 1 1 (py "resolve");
                               mkMark 1 1 1 (py "gap")] ]} in
  exists lines : list str,
    Field.render 1%positive true h
    = Some (join [10] lines ++ Field.legend_line, h)
    /\ length lines = Z.to_nat 3
    /\ Forall (line_ok 2) lines.
Proof.
  intros h.
  apply (render_lines h 1%positive 2 3 [2%positive]
           [[mkMark 0 1 1 (py "resolve"); mkMark 1 1 1 (py "gap")]] true).
  - reflexivity.
  - repeat constructor.
Defined.

(** ** The scene *)

Lemma grown_start (h : heap) (field : loc) (w ht : Z) (ls : list loc) :
  is_field h field w ht ls -> grown h field w ht ls h [] [].
Proof.
  intros Hf. unfold grown. rewrite app_nil_r.
  split; [exact Hf|split; [constructor|split]].
  - intros l o _ H. exact H.
  - intros l H. inversion H.
Qed.

(** One more path on a grown store. *)
Lemma grown_inscribe (h0 : heap) (field : loc) (w ht : Z) (ls : list loc)
    (h : heap) (new : list loc) (mss : list (list Mark))
    (origin : Z * Z) (steps : Z) (tag : str) (stride : Z) (tone : Q) :
  grown h0 field w ht ls h new mss ->
  exists (l : loc) (h' : heap),
    inscribe field origin steps tag stride tone h = Some (l, h')
    /\ grown h0 field w ht ls h' (new ++ [l])
         (mss ++ [path_marks origin (Z.to_nat steps) tag stride tone]).
Proof.
  intros (Hf & Hls & Hframe & Hnew).
  destruct (inscribe_run h field w ht (ls ++ new) origin steps tag stride
              tone Hf) as (Hrun & Hfresh & Hne).
  set (l := fresh (dom h)) in *.
  eexists l, _. split; [exact Hrun|].
  assert (forall l' o, l' <> field -> h !! l' = Some o ->
            <[field := FieldObj w ht ((ls ++ new) ++ [l])]>
              (<[l := LayerObj (path_marks origin (Z.to_nat steps) tag stride tone)]> h)
            !! l' = Some o) as Hkeep.
  { intros l' o Hl' Ho. rewrite lookup_insert_ne by congruence.
    rewrite lookup_insert_ne; [exact Ho|].
    intros E. rewrite E in Hfresh. congruence. }
  split; [|split; [|split]].
  - unfold is_field. rewrite app_assoc. apply lookup_insert_eq.
  - apply Forall2_app.
    + eapply Forall2_impl; [exact Hls|]. intros l' ms Hl'.
      apply Hkeep; [|exact Hl'].
      exact (layer_not_field _ _ _ _ _ _ _ Hl' Hf).
    + repeat constructor. unfold is_layer.
      rewrite lookup_insert_ne by congruence. apply lookup_insert_eq.
  - intros l' o Hl' Ho. apply Hkeep; [exact Hl'|]. now apply Hframe.
  - intros l' Hin. apply elem_of_app in Hin as [Hin|Hin]; [now apply Hnew|].
    apply list_elem_of_singleton in Hin as ->.
    destruct (h0 !! l) as [o|] eqn:E; [|reflexivity].
    rewrite (Hframe l o Hne E) in Hfresh. discriminate.
Qed.

(** X18.  On any field of any store, whatever its size and its layers,
    [scene] raises nothing and deposits nine new layers, in the order of the
    script, whose marks are the nine paths and depend on neither the field
    nor the store; every other object is as it was, and [draw] then returns
    a text without changing the store. *)
Theorem scene_deposits h field w ht ls mss0 :
  is_field h field w ht ls ->
  Forall2 (is_layer h) ls mss0 ->
  exists (new : list loc) (h' : heap) (s : str),
    (_ ← scene field; draw field) h = Some (s, h')
    /\ scene field h = Some (tt, h')
    /\ length new = 9%nat
    /\ is_field h' field w ht (ls ++ new)
    /\ Forall2 (is_layer h') new scene_marks
    /\ (forall l o, l <> field -> h !! l = Some o -> h' !! l = Some o)
    /\ (forall l, l ∈ new -> h !! l = None).
Proof.
  intros Hf Hls0. pose proof (grown_start h field w ht ls Hf) as G0.
  destruct (grown_inscribe _ _ _ _ _ _ _ _ (2, 3) 22 (py "ask") 1 (45 # 100) G0)
    as (l1 & h1 & R1 & G1).
  destruct (grown_inscribe _ _ _ _ _ _ _ _ (4, 5) 20 (py "answer") 1 (60 # 100) G1)
    as (l2 & h2 & R2 & G2).
  destruct (grown_inscribe _ _ _ _ _ _ _ _ (8, 7) 14 (py "turn") 1 (70 # 100) G2)
    as (l3 & h3 & R3 & G3).
  destruct (grown_inscribe _ _ _ _ _ _ _ _ (10, 7) 12 (py "care") 1 (40 # 100) G3)
    as (l4 & h4 & R4 & G4).
  destruct (grown_inscribe _ _ _ _ _ _ _ _ (16, 9) 6 (py "resolve") 2 (90 # 100) G4)
    as (l5 & h5 & R5 & G5).
  destruct (grown_inscribe _ _ _ _ _ _ _ _ (17, 6) 18 (py "answer") 1 (55 # 100) G5)
    as (l6 & h6 & R6 & G6).
  destruct (grown_inscribe _ _ _ _ _ _ _ _ (22, 8) 16 (py "doubt") 1 (50 # 100) G6)
    as (l7 & h7 & R7 & G7).
  destruct (grown_inscribe _ _ _ _ _ _ _ _ (23, 8) 10 (py "care") 1 (45 # 100) G7)
    as (l8 & h8 & R8 & G8).
  destruct (grown_inscribe _ _ _ _ _ _ _ _ (30, 9) 4 (py "resolve") 2 (90 # 100) G8)
    as (l9 & h9 & R9 & G9).
  destruct G9 as (Hf9 & Hls9 & Hframe & Hnew).
  assert (scene field h = Some (tt, h9)) as Hscene.
  { unfold scene, without. cbv zeta.
    rewrite (bind_run _ _ _ _ _ R1), (bind_run _ _ _ _ _ R2),
      (bind_run _ _ _ _ _ R3), (bind_run _ _ _ _ _ R4),
      (bind_run _ _ _ _ _ R5), (bind_run _ _ _ _ _ R6),
      (bind_run _ _ _ _ _ R7), (bind_run _ _ _ _ _ R8),
      (bind_run _ _ _ _ _ R9).
    reflexivity. }
  assert (Forall2 (is_layer h9) (ls ++ [l1; l2; l3; l4; l5; l6; l7; l8; l9])
            (mss0 ++ scene_marks)) as Hall.
  { apply Forall2_app; [|exact Hls9].
    eapply Forall2_impl; [exact Hls0|]. intros l ms Hl.
    apply Hframe; [|exact Hl].
    exact (layer_not_field _ _ _ _ _ _ _ Hl Hf). }
  destruct (paint_all_total w ht (concat (mss0 ++ scene_marks))
              (Field.blank_grid w ht) (blank_grid_shape w ht)) as (g & Hg & _).
  destruct (render_run h9 field w ht _ Hf9 _ g true Hall Hg) as [_ Ht].
  exists [l1; l2; l3; l4; l5; l6; l7; l8; l9], h9, (Field.render_text g true).
  split; [|split; [exact Hscene|split; [reflexivity|]]].
  - rewrite (bind_run _ _ _ _ _ Hscene). exact Ht.
  - split; [exact Hf9|split; [exact Hls9|split; [exact Hframe|exact Hnew]]].
Qed.

Lemma scene_deposits_witness :
  let h : heap :=
    {[ 1%positive := FieldObj 84 20 [2%positive];
       2%positive := LayerObj [mkMark 0 0 1 (py "care")] ]} in
  exists (new : list loc) (h' : heap) (s : str),
    (_ ← scene 1%positive; draw 1%positive) h = Some (s, h')
    /\ scene 1%positive h = Some (tt, h')
    /\ length new = 9%nat
    /\ is_field h' 1%positive 84 20 ([2%positive] ++ new)
    /\ Forall2 (is_layer h') new scene_marks
    /\ (forall l o, l <> 1%positive -> h !! l = Some o -> h' !! l = Some o)
    /\ (forall l, l ∈ new -> h !! l = None).
Proof.
  intros h.
  apply (scene_deposits h 1%positive 84 20 [2%positive]
           [[mkMark 0 0 1 (py "care")]]).
  - reflexivity.
  - repeat constructor.
Defined.

(** The paths of the scene hold 122 marks; in the 84 x 20 field of [main]
    the path of 'ask', which climbs from row 3, keeps 7 of its 22 marks
    inside, and the other paths all of theirs. *)
Example scene_marks_inside :
  map length scene_marks = [22; 20; 14; 12; 6; 18; 16; 10; 4]%nat
  /\ map (fun ms => length (filter (in_bounds 84 20) ms)) scene_marks
     = [7; 20; 14; 12; 6; 18; 16; 10; 4]%nat.
Proof. vm_compute. split; reflexivity. Qed.

(** ** What a path and a rendering depend on *)

Lemma path_marks_take (origin : Z * Z) (n n' : nat) (tag : str) (stride : Z)
    (tone : Q) :
  (n <= n')%nat ->
  path_marks origin n tag stride tone
  = take n (path_marks origin n' tag stride tone).
Proof.
  intros Hle. unfold path_marks.
  change (map (path_mark tag stride tone origin))
    with (fmap (M := list) (path_mark tag stride tone origin)).
  rewrite <- fmap_take, take_seq. f_equal. f_equal. lia.
Qed.

(** X19.  The marks of a path depend on the origin, the tag, the stride and
    the tone only, not on the field or the store, and a shorter path is the
    beginning of a longer one: with [steps <= steps'], the marks of
    [inscribe] with [steps] are the first [steps] marks of [inscribe] with
    [steps'], wherever the two are run. *)
Theorem inscribe_prefix h field w ht ls h2 field2 w2 ht2 ls2
    (origin : Z * Z) (steps steps' : Z) (tag : str) (stride : Z) (tone : Q) :
  is_field h field w ht ls ->
  is_field h2 field2 w2 ht2 ls2 ->
  0 <= steps <= steps' ->
  exists (l l2 : loc) (h' h2' : heap) (marks marks2 : list Mark),
    inscribe field origin steps tag stride tone h = Some (l, h')
    /\ inscribe field2 origin steps' tag stride tone h2 = Some (l2, h2')
    /\ is_layer h' l marks
    /\ is_layer h2' l2 marks2
    /\ marks = take (Z.to_nat steps) marks2.
Proof.
  intros Hf Hf2 Hsteps.
  destruct (inscribe_run h field w ht ls origin steps tag stride tone Hf)
    as (Hrun & _ & Hne).
  destruct (inscribe_run h2 field2 w2 ht2 ls2 origin steps' tag stride tone Hf2)
    as (Hrun2 & _ & Hne2).
  eexists _, _, _, _, _, _.
  split; [exact Hrun|split; [exact Hrun2|split; [|split]]].
  - unfold is_layer. rewrite lookup_insert_ne by congruence.
    apply lookup_insert_eq.
  - unfold is_layer. rewrite lookup_insert_ne by congruence.
    apply lookup_insert_eq.
  - apply (path_marks_take origin (Z.to_nat steps) (Z.to_nat steps')). lia.
Qed.

Lemma inscribe_prefix_witness :
  let h : heap := {[ 1%positive := FieldObj 84 20 [] ]} in
  let h2 : heap := {[ 5%positive := FieldObj 3 3 [7%positive];
                      7%positive := LayerObj [] ]} in
  exists (l l2 : loc) (h' h2' : heap) (marks marks2 : list Mark),
    inscribe 1%positive (4, 5) 2 (py "answer") 1 (3 # 5) h = Some (l, h')
    /\ inscribe 5%positive (4, 5) 20 (py "answer") 1 (3 # 5) h2 = Some (l2, h2')
    /\ is_layer h' l marks
    /\ is_layer h2' l2 marks2
    /\ marks = take (Z.to_nat 2) marks2.
Proof.
  intros h h2.
  apply (inscribe_prefix h 1%positive 84 20 [] h2 5%positive 3 3 [7%positive]).
  - reflexivity.
  - reflexivity.
  - lia.
Defined.

(** X20.  A rendering depends on the size of the field and on the marks in
    deposit order only, not on how the marks are split into layers: two
    fields of one size whose layers hold, end to end, the same marks
    render the same text. *)
Theorem render_layering h self ls mss h2 self2 ls2 mss2 w ht (legend : bool) :
  is_field h self w ht ls ->
  Forall2 (is_layer h) ls mss ->
  is_field h2 self2 w ht ls2 ->
  Forall2 (is_layer h2) ls2 mss2 ->
  concat mss = concat mss2 ->
  exists s : str,
    Field.render self legend h = Some (s, h)
    /\ Field.render self2 legend h2 = Some (s, h2).
Proof.
  intros Hf Hls Hf2 Hls2 E.
  destruct (paint_all_total w ht (concat mss) (Field.blank_grid w ht)
              (blank_grid_shape w ht)) as (g & Hg & _).
  destruct (render_run h self w ht ls Hf mss g legend Hls Hg) as [_ Ht].
  rewrite E in Hg.
  destruct (render_run h2 self2 w ht ls2 Hf2 mss2 g legend Hls2 Hg) as [_ Ht2].
  exists (Field.render_text g legend). split; assumption.
Qed.

Lemma render_layering_witness :
  let h : heap :=
    {[ 1%positive := FieldObj 3 2 [2%positive; 3%positive];
       2%positive := LayerObj [mkMark 0 0 (1 # 2) (py "ask")];
       3%positive := LayerObj [mkMark 0 0 (1 # 2) (py "care");
                               mkMark 2 1 1 (py "turn")] ]} in
  let h2 : heap :=
    {[ 1%positive := FieldObj 3 2 [2%positive];
       2%positive := LayerObj [mkMark 0 0 (1 # 2) (py "ask");
                               mkMark 0 0 (1 # 2) (py "care");
                               mkMark 2 1 1 (py "turn")] ]} in
  exists s : str,
    Field.render 1%positive false h = Some (s, h)
    /\ Field.render 1%positive false h2 = Some (s, h2).
Proof.
  intros h h2.
  apply (render_layering h 1%positive [2%positive; 3%positive]
           [[mkMark 0 0 (1 # 2) (py "ask")];
            [mkMark 0 0 (1 # 2) (py "care"); mkMark 2 1 1 (py "turn")]]
           h2 1%positive [2%positive]
           [[mkMark 0 0 (1 # 2) (py "ask"); mkMark 0 0 (1 # 2) (py "care");
             mkMark 2 1 1 (py "turn")]] 3 2 false).
  - reflexivity.
  - repeat constructor.
  - reflexivity.
  - repeat constructor.
  - reflexivity.
Defined.
